(** * SoulSnap room server: a model of [server/src/index.ts]

    The server is a Socket.IO application.  Its own state is the global
    [rooms] map (room identifier to [Room]); everything else it does goes
    through the Socket.IO server object [io] and the per-connection
    [socket].  This file embeds

    - the JSON payloads the server relays without looking inside them,
    - the part of Socket.IO the handlers rely on (live sockets, the
      adapter's rooms, [socket.join], [io.to(..).emit],
      [socket.to(..).emit], [socket.emit], the clean-up on close),
    - the five handlers registered in [io.on('connection', ...)],
    - the event loop that dispatches incoming packets to them,

    and then states and proves the properties of the room directory and
    of the fan-out of messages. *)

From stdpp Require Import gmap strings list fin_maps.
From Stdlib Require Import ZArith.

Open Scope string_scope.
Open Scope list_scope.

Set Warnings "-register-all,-clear-no-such-hyp".

(** ** Payloads and messages *)

(** A JSON value.  The server never inspects [signal] or [layers]; it
    copies them from the incoming packet into the outgoing one. *)
Inductive json : Type :=
  | JNull
  | JBool (b : bool)
  | JNum (n : Z)
  | JStr (s : string)
  | JArr (items : list json)
  | JObj (fields : list (string * json)).

(** Packets a client sends, with the fields the handlers destructure.
    ['background-update'] is emitted by the editor component of the
    client; [index.ts] registers no listener for it. *)
Inductive ClientMsg : Type :=
  | JoinRoom (roomId : string)
  | Signal (to : string) (signal : json)
  | LayerUpdate (roomId : string) (layers : json)
  | CaptureTrigger (roomId : string)
  | BackgroundUpdate (roomId : string) (background : json).

(** Packets the server emits. *)
Inductive ServerMsg : Type :=
  | RoomJoined (roomId userId : string)
  | UserJoined (userId : string)
  | UserLeft (userId : string)
  | SignalFrom (from : string) (signal : json)
  | LayersReplaced (layers : json)
  | BackgroundReplaced (background : json)
  | CaptureNow (timestamp : Z).

(** One packet written to one socket. *)
Definition Delivery : Type := string * ServerMsg.

(** What the socket [sid] observes in a list of deliveries, in order. *)
Definition received (sid : string) (out : list Delivery) : list ServerMsg :=
  snd <$> filter (λ d, d.1 = sid) out.

(** ** Socket.IO

    The library is a dependency of the repository, not part of it.  The
    model keeps what the handlers use, as the library documents it:

    - the namespace's live sockets ([nsp.sockets]);
    - the in-memory adapter's [rooms : Map<Room, Set<SocketId>>];
    - on connection a socket joins the room named by its own id (this is
      what makes [io.to(to).emit] in the ['signal'] handler reach the
      socket [to]);
    - on close the socket leaves all its rooms and is removed from the
      live sockets before the ['disconnect'] listeners run; a room left
      empty is dropped from the adapter;
    - a broadcast to a room writes the packet once to every live socket
      of the room that is not excepted; what a broadcast excepts is a
      set of rooms, and a socket's own broadcasts ([socket.to]) except
      the room named by its id. *)
Module SocketIO.

Record Server : Type := {
  sockets : gset string;
  adapter : gmap string (gset string)
}.

Definition empty : Server := {| sockets := ∅; adapter := ∅ |}.

Definition room_sids (srv : Server) (room : string) : gset string :=
  default ∅ (adapter srv !! room).

Definition add_to_room (sid room : string) (srv : Server) : gmap string (gset string) :=
  <[room := {[sid]} ∪ room_sids srv room]> (adapter srv).

(** A new connection with id [sid]. *)
Definition connect (sid : string) (srv : Server) : Server :=
  {| sockets := {[sid]} ∪ sockets srv;
     adapter := add_to_room sid sid srv |}.

(** [socket.join(room)] *)
Definition join (sid room : string) (srv : Server) : Server :=
  {| sockets := sockets srv;
     adapter := add_to_room sid room srv |}.

Definition leave_one (sid : string) (sids : gset string) : option (gset string) :=
  let sids' := sids ∖ {[sid]} in
  if decide (sids' = ∅) then None else Some sids'.

(** The clean-up when the transport of [sid] closes. *)
Definition close (sid : string) (srv : Server) : Server :=
  {| sockets := sockets srv ∖ {[sid]};
     adapter := omap (leave_one sid) (adapter srv) |}.

(** The sockets a broadcast to [room] reaches. *)
Definition recipients (srv : Server) (room : string) (except : gset string) : list string :=
  elements ((room_sids srv room ∩ sockets srv) ∖ except).

Definition broadcast (srv : Server) (room : string) (except : gset string)
    (msg : ServerMsg) : list Delivery :=
  (λ sid, (sid, msg)) <$> recipients srv room except.

(** [io.to(room).emit(msg)] *)
Definition io_to_emit (srv : Server) (room : string) (msg : ServerMsg) : list Delivery :=
  broadcast srv room ∅ msg.

(** [socket.to(room).emit(msg)]: the broadcast excepts the room named by
    the sender's id, that is every socket of that room: the sender itself
    while it is connected, and any socket that joined a room of that
    name. *)
Definition socket_to_emit (srv : Server) (sid room : string) (msg : ServerMsg) : list Delivery :=
  broadcast srv room (room_sids srv sid) msg.

(** [socket.emit(msg)] *)
Definition socket_emit (sid : string) (msg : ServerMsg) : list Delivery :=
  [(sid, msg)].

End SocketIO.

(** ** The room directory: [const rooms = new Map<string, Room>()] *)

Record Room : Type := {
  id : string;
  users : gset string
}.

Abbreviation Directory := (gmap string Room).

(** The member set held for a room; empty for an unknown room. *)
Definition members_of (roomId : string) (rooms : Directory) : gset string :=
  match rooms !! roomId with
  | Some room => users room
  | None => ∅
  end.

(** [room.users.add(socket.id)] *)
Definition add_user (sid : string) (room : Room) : Room :=
  {| id := id room; users := {[sid]} ∪ users room |}.

(** The directory part of the ['join-room'] handler:
[[
    if (!rooms.has(roomId)) {
      rooms.set(roomId, { id: roomId, users: new Set() });
    }
    const room = rooms.get(roomId)!;
    room.users.add(socket.id);
]] *)
Definition join_room_dir (sid roomId : string) (rooms : Directory) : Directory :=
  let rooms1 :=
    if decide (is_Some (rooms !! roomId)) then rooms
    else <[roomId := {| id := roomId; users := ∅ |}]> rooms in
  alter (add_user sid) roomId rooms1.

(** What the body of [rooms.forEach] in the ['disconnect'] handler does
    to one entry: [None] is [rooms.delete(roomId)].
[[
      if (room.users.has(socket.id)) {
        room.users.delete(socket.id);
        ...
        if (room.users.size === 0) {
          rooms.delete(roomId);
        }
      }
]] *)
Definition leave_room (sid : string) (room : Room) : option Room :=
  if decide (sid ∈ users room) then
    let room' := {| id := id room; users := users room ∖ {[sid]} |} in
    if decide (size (users room') = 0) then None else Some room'
  else Some room.

(** The directory part of the ['disconnect'] handler.  The callback only
    ever deletes the entry it is visiting, so the loop treats every entry
    on its own. *)
Definition disconnect_dir (sid : string) (rooms : Directory) : Directory :=
  omap (leave_room sid) rooms.

(** ** The handlers *)

Record State : Type := {
  rooms : Directory;
  io : SocketIO.Server
}.

Definition init : State := {| rooms := ∅; io := SocketIO.empty |}.

(** [socket.on('join-room', (roomId) => ...)] *)
Definition on_join_room (sid roomId : string) (st : State) : State * list Delivery :=
  let rooms' := join_room_dir sid roomId (rooms st) in
  let io' := SocketIO.join sid roomId (io st) in
  ({| rooms := rooms'; io := io' |},
   SocketIO.socket_emit sid (RoomJoined roomId sid)
   ++ SocketIO.socket_to_emit io' sid roomId (UserJoined sid)).

(** [socket.on('signal', ({ to, signal }) => ...)] *)
Definition on_signal (sid to : string) (signal : json) (st : State) : State * list Delivery :=
  (st, SocketIO.io_to_emit (io st) to (SignalFrom sid signal)).

(** [socket.on('layer-update', ({ roomId, layers }) => ...)] *)
Definition on_layer_update (sid roomId : string) (layers : json) (st : State)
    : State * list Delivery :=
  (st, SocketIO.socket_to_emit (io st) sid roomId (LayersReplaced layers)).

(** [socket.on('capture-trigger', (roomId) => ...)]; [now] is the value
    of the handler's one call of [Date.now()]. *)
Definition on_capture_trigger (roomId : string) (now : Z) (st : State)
    : State * list Delivery :=
  (st, SocketIO.io_to_emit (io st) roomId (CaptureNow now)).

(** The notices of the ['disconnect'] handler, one broadcast per room
    that held the socket. *)
Definition user_left_notices (sid : string) (st : State) : list Delivery :=
  flat_map
    (λ entry : string * Room,
       if decide (sid ∈ users entry.2)
       then SocketIO.socket_to_emit (io st) sid entry.1 (UserLeft sid)
       else [])
    (map_to_list (rooms st)).

(** [socket.on('disconnect', () => ...)] *)
Definition on_disconnect (sid : string) (st : State) : State * list Delivery :=
  ({| rooms := disconnect_dir sid (rooms st); io := io st |},
   user_left_notices sid st).

(** ** The event loop *)

(** What reaches the server: a new connection, a packet from a socket
    (with the clock reading at the time its handler runs), the loss of a
    connection. *)
Inductive Event : Type :=
  | Connection (sid : string)
  | Packet (sid : string) (msg : ClientMsg) (now : Z)
  | Closed (sid : string).

Definition with_io (st : State) (srv : SocketIO.Server) : State :=
  {| rooms := rooms st; io := srv |}.

(** Socket.IO runs a socket's listeners only while the socket is
    connected, and ignores a packet whose event has no listener.  The ids
    of live sockets are distinct: a connection under the id of a live
    socket does not occur and is skipped. *)
Definition step (st : State) (ev : Event) : State * list Delivery :=
  match ev with
  | Connection sid =>
      if decide (sid ∈ SocketIO.sockets (io st)) then (st, [])
      else (with_io st (SocketIO.connect sid (io st)), [])
  | Packet sid msg now =>
      if decide (sid ∈ SocketIO.sockets (io st)) then
        match msg with
        | JoinRoom roomId => on_join_room sid roomId st
        | Signal to signal => on_signal sid to signal st
        | LayerUpdate roomId layers => on_layer_update sid roomId layers st
        | CaptureTrigger roomId => on_capture_trigger roomId now st
        | BackgroundUpdate _ _ => (st, [])
        end
      else (st, [])
  | Closed sid =>
      if decide (sid ∈ SocketIO.sockets (io st)) then
        on_disconnect sid (with_io st (SocketIO.close sid (io st)))
      else (st, [])
  end.

(** Processing a sequence of events: the final state and everything
    delivered on the way, in order. *)
Fixpoint run (st : State) (evs : list Event) : State * list Delivery :=
  match evs with
  | [] => (st, [])
  | ev :: evs' =>
      let (st1, out1) := step st ev in
      let (st2, out2) := run st1 evs' in
      (st2, out1 ++ out2)
  end.

(** The states the server can be in. *)
Definition reachable (st : State) : Prop :=
  ∃ evs, (run init evs).1 = st.

(** The calls of the two handlers that touch the directory, as a
    sequence of their own. *)
Inductive DirEvent : Type :=
  | Joins (sid roomId : string)
  | Disconnects (sid : string).

Definition dir_step (rooms : Directory) (ev : DirEvent) : Directory :=
  match ev with
  | Joins sid roomId => join_room_dir sid roomId rooms
  | Disconnects sid => disconnect_dir sid rooms
  end.

Definition dir_run (evs : list DirEvent) : Directory :=
  foldl dir_step ∅ evs.

(** The spec's side of the membership property: [sid] has joined
    [roomId] and has not left since. *)
Definition joined_not_left (sid roomId : string) (evs : list DirEvent) : Prop :=
  ∃ before after,
    evs = before ++ Joins sid roomId :: after ∧ Disconnects sid ∉ after.

(** The two components of a step. *)
Definition next (st : State) (ev : Event) : State := (step st ev).1.
Definition emitted (st : State) (ev : Event) : list Delivery := (step st ev).2.

(** The sockets that are written to in a list of deliveries. *)
Definition reached (out : list Delivery) : list string := fst <$> out.

(** The handler calls on the directory that an event gives rise to. *)
Definition dir_events (st : State) (ev : Event) : list DirEvent :=
  match ev with
  | Packet sid (JoinRoom roomId) _ =>
      if decide (sid ∈ SocketIO.sockets (io st)) then [Joins sid roomId] else []
  | Closed sid =>
      if decide (sid ∈ SocketIO.sockets (io st)) then [Disconnects sid] else []
  | _ => []
  end.

Fixpoint dir_trace (st : State) (evs : list Event) : list DirEvent :=
  match evs with
  | [] => []
  | ev :: evs' => dir_events st ev ++ dir_trace (next st ev) evs'
  end.

(** How the adapter's rooms and the directory relate: the sockets of the
    adapter's room [roomId] are the directory's members of [roomId] and,
    when [roomId] is the id of a live socket, that socket; and only live
    sockets are members. *)
Definition consistent (st : State) : Prop :=
  (∀ roomId sid,
     sid ∈ SocketIO.room_sids (io st) roomId ↔
     sid ∈ members_of roomId (rooms st)
     ∨ (sid = roomId ∧ roomId ∈ SocketIO.sockets (io st)))
  ∧ (∀ roomId sid,
       sid ∈ members_of roomId (rooms st) → sid ∈ SocketIO.sockets (io st)).

(** ** Three small states *)

(** [C1] and [C2] are connected and have joined no room. *)
Definition connected2 : State :=
  (run init [Connection "C1"; Connection "C2"]).1.

(** [C1] and [C2] are connected and both have joined ["abc123"]. *)
Definition lobby2 : State :=
  (run init [Connection "C1"; Connection "C2";
             Packet "C1" (JoinRoom "abc123") 0;
             Packet "C2" (JoinRoom "abc123") 0]).1.

(** [C1] has joined ["abc123"], [C2] has joined ["xyz789"]. *)
Definition two_rooms : State :=
  (run init [Connection "C1"; Connection "C2";
             Packet "C1" (JoinRoom "abc123") 0;
             Packet "C2" (JoinRoom "xyz789") 0]).1.

(** As [lobby2], and [C2] has also joined the room named ["C1"], the
    identity of the other connection. *)
Definition lobby2_named : State :=
  (run init [Connection "C1"; Connection "C2";
             Packet "C1" (JoinRoom "abc123") 0;
             Packet "C2" (JoinRoom "abc123") 0;
             Packet "C2" (JoinRoom "C1") 0]).1.

(** [C1] and [C2] are connected; [C2] has joined the room named ["C3"];
    the connection [C3] has come and gone. *)
Definition after_c3 : State :=
  (run init [Connection "C1"; Connection "C2"; Connection "C3";
             Packet "C2" (JoinRoom "C3") 0;
             Closed "C3"]).1.

Definition offer : json := JObj [("type", JStr "offer")].

Definition layers2 : json :=
  JArr [JObj [("id", JStr "layer-0"); ("opacity", JNum 1)];
        JObj [("id", JStr "layer-1"); ("opacity", JNum 1)]].

Definition layers1 : json :=
  JArr [JObj [("id", JStr "layer-0"); ("opacity", JNum 1)]].

(** ** Further notions for the server *)

(** The events that can change who is connected or who is in which
    room: connections, closes and ['join-room'] packets. *)
Definition changes_membership (ev : Event) : bool :=
  match ev with
  | Packet _ (JoinRoom _) _ => true
  | Packet _ _ _ => false
  | _ => true
  end.

(** The number of rooms of the directory that hold [sid] and through
    which a ['user-left'] for [sid] reaches [m]: [m] is a member too, or
    [m] is the live connection after whose id the room is named. *)
Definition rooms_shared (sid m : string) (st : State) : nat :=
  length
    (filter
       (λ entry : string * Room,
          sid ∈ users entry.2
          ∧ (m ∈ users entry.2
             ∨ (m = entry.1 ∧ m ∈ SocketIO.sockets (io st))))
       (map_to_list (rooms st))).

(** A directory in which no room has an empty member set. *)
Definition no_empty_room (rooms : Directory) : Prop :=
  ∀ roomId room, rooms !! roomId = Some room → users room ≠ ∅.

(** The directory events that can touch the member set of [roomId]:
    joins of that room, and all disconnects. *)
Definition concerns (roomId : string) (ev : DirEvent) : Prop :=
  match ev with
  | Joins _ roomId' => roomId' = roomId
  | Disconnects _ => True
  end.

#[global] Instance concerns_dec roomId ev : Decision (concerns roomId ev).
Proof. destruct ev; simpl; apply _. Defined.

(** ** The Room component of the client: its table of peer connections

    [Room] keeps [peersRef : Map<string, PeerConnection>] and changes it
    in its listeners for ['user-joined'], ['user-left'] and ['signal'].
    The media stream of a connection and the rendering are left out. *)

(** A [simple-peer] instance as far as these listeners act on it: how
    it was constructed, whether [destroy()] was called on it, and what
    was passed to [signal(..)], in order. *)
Record Peer : Type := {
  initiator : bool;
  destroyed : bool;
  signalled : list json
}.

(** The instances constructed so far (an instance is known by its
    position) and the table. *)
Record RoomClient : Type := {
  peers : list Peer;
  peersRef : gmap string nat
}.

Definition new_client : RoomClient := {| peers := []; peersRef := ∅ |}.

(** [peerConn.peer.destroy()] *)
Definition destroy (p : Peer) : Peer :=
  {| initiator := initiator p; destroyed := true; signalled := signalled p |}.

(** [peerConn.peer.signal(signal)] *)
Definition feed (signal : json) (p : Peer) : Peer :=
  {| initiator := initiator p; destroyed := destroyed p;
     signalled := signalled p ++ [signal] |}.

(** [createPeerConnection(peerId, initiator, socket)]: constructs an
    instance and stores it under [peerId], whatever was stored there;
    returns the new connection. *)
Definition createPeerConnection (peerId : string) (init : bool) (c : RoomClient)
    : RoomClient * nat :=
  let n := length (peers c) in
  ({| peers := peers c ++ [{| initiator := init; destroyed := false; signalled := [] |}];
      peersRef := <[peerId := n]> (peersRef c) |}, n).

(** [newSocket.on('user-joined', ({ userId: newUserId }) => ...)] *)
Definition on_user_joined (newUserId : string) (c : RoomClient) : RoomClient :=
  (createPeerConnection newUserId true c).1.

(** [newSocket.on('user-left', ({ userId: leftUserId }) => ...)] *)
Definition on_user_left (leftUserId : string) (c : RoomClient) : RoomClient :=
  match peersRef c !! leftUserId with
  | Some n =>
      {| peers := alter destroy n (peers c);
         peersRef := delete leftUserId (peersRef c) |}
  | None => c
  end.

(** [newSocket.on('signal', ({ from, signal }) => ...)] *)
Definition on_signal_from (from : string) (signal : json) (c : RoomClient) : RoomClient :=
  let '(c', n) :=
    match peersRef c !! from with
    | Some n => (c, n)
    | None => createPeerConnection from false c
    end in
  {| peers := alter (feed signal) n (peers c'); peersRef := peersRef c' |}.

(** What a packet from the server does to the table; the listeners for
    the other packets do not touch it. *)
Definition client_recv (c : RoomClient) (msg : ServerMsg) : RoomClient :=
  match msg with
  | UserJoined userId => on_user_joined userId c
  | UserLeft userId => on_user_left userId c
  | SignalFrom from signal => on_signal_from from signal c
  | _ => c
  end.

Definition client_run (c : RoomClient) (msgs : list ServerMsg) : RoomClient :=
  foldl client_recv c msgs.

(** The table refers to instances that exist and were not destroyed,
    and to a different one under each key. *)
Definition table_ok (c : RoomClient) : Prop :=
  (∀ peerId n, peersRef c !! peerId = Some n →
     ∃ p, peers c !! n = Some p ∧ destroyed p = false)
  ∧ (∀ peerId1 peerId2 n,
       peersRef c !! peerId1 = Some n → peersRef c !! peerId2 = Some n →
       peerId1 = peerId2).

(** What happens to the component: a packet arrives, or the instance
    at some position fails.  On an error (signalling data it cannot
    use, a connection that cannot be made) a [simple-peer] instance
    destroys itself; the component's ['error'] listener only logs, so
    the instance stays where it is in the table. *)
Inductive ClientEvent : Type :=
  | Arrives (msg : ServerMsg)
  | PeerFails (n : nat).

(** The instance stored for [peerId], if any. *)
Definition stored_peer (peerId : string) (c : RoomClient) : option Peer :=
  peersRef c !! peerId ≫= λ n, peers c !! n.

(** [signal(..)] on a destroyed instance throws, which ends the
    ['signal'] listener where it stands. *)
Definition client_step (c : RoomClient) (ev : ClientEvent) : RoomClient :=
  match ev with
  | Arrives (SignalFrom from signal) =>
      match stored_peer from c with
      | Some p => if destroyed p then c else on_signal_from from signal c
      | None => on_signal_from from signal c
      end
  | Arrives msg => client_recv c msg
  | PeerFails n => {| peers := alter destroy n (peers c); peersRef := peersRef c |}
  end.

Definition client_events (c : RoomClient) (evs : list ClientEvent) : RoomClient :=
  foldl client_step c evs.

(** The table refers to instances that exist, to a different one under
    each key, and to a destroyed one only if that one failed. *)
Definition table_refs_ok (evs : list ClientEvent) (c : RoomClient) : Prop :=
  (∀ peerId n, peersRef c !! peerId = Some n →
     ∃ p, peers c !! n = Some p ∧ (destroyed p = true → PeerFails n ∈ evs))
  ∧ (∀ peerId1 peerId2 n,
       peersRef c !! peerId1 = Some n → peersRef c !! peerId2 = Some n →
       peerId1 = peerId2).

(** ** The editor of the client: its list of layers

    [Editor] keeps [layers : Layer[]] and [selectedLayerId], changes
    them in [updateLayer], [moveLayerUp], [moveLayerDown] and
    [deleteLayer], and sends every new list as a ['layer-update'].  The
    functions copy the numbers and images of a layer and never compute
    with them, so their types are left open. *)
Module Editor.

Inductive LayerType : Type := image_layer | media_layer.

Section layers.
Context {number image : Type}.

Record Layer : Type := {
  id : string;
  name : string;
  type : LayerType;
  imageData : option image;
  imageUrl : option string;
  visible : bool;
  opacity : number;
  x : number;
  y : number;
  scale : number;
  rotation : number;
  locked : bool
}.

(** A [Partial<Layer>]: for each key, [None] when the object does not
    have it. *)
Record LayerUpdates : Type := {
  set_id : option string;
  set_name : option string;
  set_type : option LayerType;
  set_imageData : option (option image);
  set_imageUrl : option (option string);
  set_visible : option bool;
  set_opacity : option number;
  set_x : option number;
  set_y : option number;
  set_scale : option number;
  set_rotation : option number;
  set_locked : option bool
}.

(** [{ ...layer, ...updates }] *)
Definition spread (layer : Layer) (updates : LayerUpdates) : Layer :=
  {| id := default (id layer) (set_id updates);
     name := default (name layer) (set_name updates);
     type := default (type layer) (set_type updates);
     imageData := default (imageData layer) (set_imageData updates);
     imageUrl := default (imageUrl layer) (set_imageUrl updates);
     visible := default (visible layer) (set_visible updates);
     opacity := default (opacity layer) (set_opacity updates);
     x := default (x layer) (set_x updates);
     y := default (y layer) (set_y updates);
     scale := default (scale layer) (set_scale updates);
     rotation := default (rotation layer) (set_rotation updates);
     locked := default (locked layer) (set_locked updates) |}.

(** The new list of [updateLayer], which is stored and broadcast:
[[
    const updatedLayers = layers.map(layer =>
      layer.id === layerId ? { ...layer, ...updates } : layer
    );
]] *)
Definition updateLayer (layerId : string) (updates : LayerUpdates)
    (layers : list Layer) : list Layer :=
  (λ layer, if decide (id layer = layerId) then spread layer updates else layer)
    <$> layers.

(** [layers.findIndex(l => l.id === layerId)]: [-1] when there is
    none. *)
Definition findIndex (layerId : string) (layers : list Layer) : Z :=
  match list_find (λ l, id l = layerId) layers with
  | Some (i, _) => Z.of_nat i
  | None => (-1)%Z
  end.

(** An array whose elements may be [undefined]. *)
Definition array_get (a : list (option Layer)) (i : Z) : option Layer :=
  if decide (0 ≤ i)%Z then mjoin (a !! Z.to_nat i) else None.

(** [a[i] = v]: a negative [i] names a property, not an element; an
    [i] past the end extends the array. *)
Definition array_set (i : Z) (v : option Layer) (a : list (option Layer))
    : list (option Layer) :=
  if decide (i < 0)%Z then a
  else if decide (Z.to_nat i < length a) then <[Z.to_nat i := v]> a
  else a ++ replicate (Z.to_nat i - length a) None ++ [v].

(** [moveLayerUp]: [None] when the guard fails and nothing is stored or
    sent, otherwise the new list.
[[
    const index = layers.findIndex(l => l.id === layerId);
    if (index < layers.length - 1) {
      const newLayers = [...layers];
      [newLayers[index], newLayers[index + 1]] = [newLayers[index + 1], newLayers[index]];
]] *)
Definition moveLayerUp (layerId : string) (layers : list Layer)
    : option (list (option Layer)) :=
  let index := findIndex layerId layers in
  if decide (index < Z.of_nat (length layers) - 1)%Z then
    let newLayers := Some <$> layers in
    let v0 := array_get newLayers (index + 1) in
    let v1 := array_get newLayers index in
    Some (array_set (index + 1) v1 (array_set index v0 newLayers))
  else None.

(** [moveLayerDown]:
[[
    if (index > 0) {
      const newLayers = [...layers];
      [newLayers[index], newLayers[index - 1]] = [newLayers[index - 1], newLayers[index]];
]] *)
Definition moveLayerDown (layerId : string) (layers : list Layer)
    : option (list (option Layer)) :=
  let index := findIndex layerId layers in
  if decide (0 < index)%Z then
    let newLayers := Some <$> layers in
    let v0 := array_get newLayers (index - 1) in
    let v1 := array_get newLayers index in
    Some (array_set (index - 1) v1 (array_set index v0 newLayers))
  else None.

Record EditorState : Type := {
  layers : list Layer;
  selectedLayerId : option string
}.

(** [deleteLayer]:
[[
    const newLayers = layers.filter(l => l.id !== layerId);
    setLayers(newLayers);
    broadcastLayerUpdate(newLayers);
    if (selectedLayerId === layerId && newLayers.length > 0) {
      setSelectedLayerId(newLayers[0].id);
    }
]] *)
Definition deleteLayer (layerId : string) (st : EditorState) : EditorState :=
  let newLayers := filter (λ l, id l ≠ layerId) (layers st) in
  {| layers := newLayers;
     selectedLayerId :=
       if decide (selectedLayerId st = Some layerId ∧ 0 < length newLayers)
       then id <$> head newLayers
       else selectedLayerId st |}.

End layers.

Arguments Layer : clear implicits.
Arguments LayerUpdates : clear implicits.
Arguments EditorState : clear implicits.

(** Three layers as the editor makes them from captured frames. *)
Definition sample_layer (layerId : string) : Layer Z unit :=
  {| id := layerId; name := "Person"; type := image_layer;
     imageData := Some (); imageUrl := None; visible := true; opacity := 1%Z;
     x := 0%Z; y := 0%Z; scale := 1%Z; rotation := 0%Z; locked := false |}.

Definition sample_layers : list (Layer Z unit) :=
  [sample_layer "layer-0"; sample_layer "layer-1"; sample_layer "layer-2"].

(** [{ opacity: v }] *)
Definition only_opacity (v : Z) : LayerUpdates Z unit :=
  {| set_id := None; set_name := None; set_type := None; set_imageData := None;
     set_imageUrl := None; set_visible := None; set_opacity := Some v;
     set_x := None; set_y := None; set_scale := None; set_rotation := None;
     set_locked := None |}.

End Editor.

(** ** The depth map of [mlProcessor.ts]

    [generateSimpleDepthMap] fills a [Uint8ClampedArray] of
    [width * height * 4] bytes, four bytes a pixel, from the mask of the
    first segmentation.  [maskData] below is what the function has
    after looking for the mask's bytes: [None] when there is no
    segmentation or no mask, when the bytes are not found in any of the
    three places it looks, or when looking for them throws.  The result
    is the array that is handed to [new ImageData]. *)
Module MlProcessor.

(** The values of [i] in [for (let i = 0; i < bound; i += 4)], as pixel
    numbers: [i = 4 * p]. *)
Definition pixels (bound : nat) : list nat := seq 0 ((bound + 3) / 4).

(** Four writes [depthData[i] .. depthData[i + 3]]; a write past the
    end of a typed array does nothing. *)
Definition write_pixel (i : nat) (r g b a : Z) (depthData : list Z) : list Z :=
  <[i + 3 := a]> (<[i + 2 := b]> (<[i + 1 := g]> (<[i := r]> depthData))).

(** [maskData[i + 3] !== undefined ? maskData[i + 3] : maskData[i]] *)
Definition alpha_at (maskData : list Z) (i : nat) : option Z :=
  match maskData !! (i + 3) with
  | Some a => Some a
  | None => maskData !! i
  end.

(** [alpha > 128 ? 200 : 50]; a comparison with [undefined] is
    false. *)
Definition depth_of (alpha : option Z) : Z :=
  match alpha with
  | Some a => if decide (128 < a)%Z then 200%Z else 50%Z
  | None => 50%Z
  end.

(** The loop over the mask:
[[
    for (let i = 0; i < maskData.length && i < depthData.length; i += 4) {
      const alpha = maskData[i + 3] !== undefined ? maskData[i + 3] : maskData[i];
      const depth = alpha > 128 ? 200 : 50;
      depthData[i] = depth; depthData[i + 1] = depth; depthData[i + 2] = depth;
      depthData[i + 3] = 255;
    }
]] *)
Definition fill_from_mask (maskData depthData : list Z) : list Z :=
  foldl
    (λ depthData p,
       let depth := depth_of (alpha_at maskData (4 * p)) in
       write_pixel (4 * p) depth depth depth 255 depthData)
    depthData
    (pixels (length maskData `min` length depthData)).

(** The neutral map:
[[
    for (let i = 0; i < depthData.length; i += 4) {
      depthData[i] = depthData[i + 1] = depthData[i + 2] = 128;
      depthData[i + 3] = 255;
    }
]] *)
Definition fill_neutral (depthData : list Z) : list Z :=
  foldl (λ depthData p, write_pixel (4 * p) 128 128 128 255 depthData)
    depthData
    (pixels (length depthData)).

Definition generateSimpleDepthMap (maskData : option (list Z)) (width height : nat)
    : list Z :=
  let depthData := replicate (width * height * 4) 0%Z in
  match maskData with
  | Some maskData =>
      if decide (0 < length maskData) then fill_from_mask maskData depthData
      else fill_neutral depthData
  | None => fill_neutral depthData
  end.

(** The four bytes of pixel [p]. *)
Definition pixel_at (p : nat) (data : list Z) : list Z :=
  take 4 (drop (4 * p) data).

End MlProcessor.

(** ** Lemmas on deliveries *)

Lemma received_nil sid : received sid [] = [].
Proof. reflexivity. Qed.

Lemma received_app sid out1 out2 :
  received sid (out1 ++ out2) = received sid out1 ++ received sid out2.
Proof. unfold received. by rewrite filter_app, fmap_app. Qed.

Lemma received_cons sid d out :
  received sid (d :: out) =
  if decide (d.1 = sid) then d.2 :: received sid out else received sid out.
Proof.
  unfold received. rewrite filter_cons. by destruct (decide (d.1 = sid)).
Qed.

Lemma elem_of_received sid msg out :
  msg ∈ received sid out ↔ (sid, msg) ∈ out.
Proof.
  unfold received. rewrite list_elem_of_fmap. split.
  - intros ([sid' msg'] & -> & Hin). apply list_elem_of_filter in Hin as [Heq Hin].
    simpl in *. by subst.
  - intros Hin. exists (sid, msg). split; [done|].
    apply list_elem_of_filter. by split.
Qed.

(** A packet sent once to each of a duplicate-free list of sockets is
    seen exactly once by those sockets and not at all by the others. *)
Lemma received_fanout sid msg (sids : list string) :
  NoDup sids →
  received sid ((λ s, (s, msg)) <$> sids) = if decide (sid ∈ sids) then [msg] else [].
Proof.
  induction 1 as [|s sids Hnotin Hnodup IH]; [done|].
  rewrite fmap_cons, received_cons, IH. simpl.
  destruct (decide (s = sid)) as [->|Hne].
  - rewrite (decide_False (P := sid ∈ sids)) by done.
    by rewrite decide_True by left.
  - destruct (decide (sid ∈ sids)) as [Hin|Hout].
    + by rewrite decide_True by (by right).
    + rewrite decide_False; [done|]. intros Hin.
      apply elem_of_cons in Hin as [->|]; done.
Qed.

(** ** Lemmas on the Socket.IO model *)

Module SocketIOFacts.
Import SocketIO.

Lemma room_sids_add sid room srv room' :
  default ∅ (add_to_room sid room srv !! room') =
  if decide (room' = room) then {[sid]} ∪ room_sids srv room
  else room_sids srv room'.
Proof.
  unfold add_to_room. destruct (decide (room' = room)) as [->|Hne].
  - by rewrite lookup_insert_eq.
  - by rewrite lookup_insert_ne.
Qed.

Lemma room_sids_connect sid srv room :
  room_sids (connect sid srv) room =
  if decide (room = sid) then {[sid]} ∪ room_sids srv sid
  else room_sids srv room.
Proof. apply room_sids_add. Qed.

Lemma room_sids_join sid room srv room' :
  room_sids (join sid room srv) room' =
  if decide (room' = room) then {[sid]} ∪ room_sids srv room
  else room_sids srv room'.
Proof. apply room_sids_add. Qed.

Lemma room_sids_close sid srv room :
  room_sids (close sid srv) room = room_sids srv room ∖ {[sid]}.
Proof.
  unfold room_sids, close. simpl. rewrite lookup_omap.
  destruct (adapter srv !! room) as [sids|]; simpl.
  - unfold leave_one. destruct (decide (sids ∖ {[sid]} = ∅)) as [->|]; done.
  - set_solver.
Qed.

Lemma elem_of_recipients srv room except sid :
  sid ∈ recipients srv room except ↔
  sid ∈ room_sids srv room ∧ sid ∈ sockets srv ∧ sid ∉ except.
Proof. unfold recipients. rewrite elem_of_elements. set_solver. Qed.

Lemma NoDup_recipients srv room except : NoDup (recipients srv room except).
Proof. apply NoDup_elements. Qed.

(** Every socket a broadcast reaches sees the packet exactly once. *)
Lemma received_broadcast srv room except msg sid :
  received sid (broadcast srv room except msg) =
  if decide (sid ∈ recipients srv room except) then [msg] else [].
Proof. apply received_fanout, NoDup_recipients. Qed.

Lemma elem_of_broadcast srv room except msg d :
  d ∈ broadcast srv room except msg ↔
  d.2 = msg ∧ d.1 ∈ recipients srv room except.
Proof.
  unfold broadcast. rewrite list_elem_of_fmap. split.
  - by intros (s & -> & Hs).
  - intros [Hmsg Hin]. exists d.1. split; [|done]. destruct d; simpl in *. by subst.
Qed.

End SocketIOFacts.

(** ** Lemmas on the directory *)

Lemma members_of_empty roomId : members_of roomId ∅ = ∅.
Proof. unfold members_of. by rewrite lookup_empty. Qed.

Lemma members_of_join sid roomId rooms roomId' :
  members_of roomId' (join_room_dir sid roomId rooms) =
  if decide (roomId' = roomId) then {[sid]} ∪ members_of roomId rooms
  else members_of roomId' rooms.
Proof.
  unfold members_of, join_room_dir.
  destruct (decide (roomId' = roomId)) as [->|Hne].
  - rewrite lookup_alter_eq.
    destruct (decide (is_Some (rooms !! roomId))) as [[room Hroom]|Hnone].
    + by rewrite Hroom.
    + rewrite lookup_insert_eq. apply eq_None_not_Some in Hnone. by rewrite Hnone.
  - rewrite lookup_alter_ne by done.
    destruct (decide (is_Some (rooms !! roomId))); [done|].
    by rewrite lookup_insert_ne.
Qed.

Lemma lookup_disconnect_dir sid rooms roomId :
  disconnect_dir sid rooms !! roomId = rooms !! roomId ≫= leave_room sid.
Proof. apply lookup_omap. Qed.

Lemma leave_room_Some sid room room' :
  leave_room sid room = Some room' →
  users room' = users room ∖ {[sid]} ∧ users room' ≠ ∅ ∨
  room' = room ∧ sid ∉ users room.
Proof.
  unfold leave_room. destruct (decide (sid ∈ users room)) as [Hin|Hout].
  - simpl. destruct (decide (size (users room ∖ {[sid]}) = 0)) as [|Hsize]; [done|].
    intros [= <-]. left. split; [done|]. simpl. intros Hempty.
    by rewrite Hempty, size_empty in Hsize.
  - intros [= <-]. by right.
Qed.

Lemma leave_room_None sid room :
  leave_room sid room = None → users room ∖ {[sid]} = ∅.
Proof.
  unfold leave_room. destruct (decide (sid ∈ users room)); [|done].
  simpl. destruct (decide (size (users room ∖ {[sid]}) = 0)) as [Hsize|]; [|done].
  intros _. by apply size_empty_iff, leibniz_equiv in Hsize.
Qed.

Lemma members_of_disconnect sid rooms roomId :
  members_of roomId (disconnect_dir sid rooms) = members_of roomId rooms ∖ {[sid]}.
Proof.
  unfold members_of. rewrite lookup_disconnect_dir.
  destruct (rooms !! roomId) as [room|]; simpl; [|set_solver].
  destruct (leave_room sid room) as [room'|] eqn:Hleave.
  - apply leave_room_Some in Hleave as [[-> _]|[-> Hout]]; [done|set_solver].
  - by apply leave_room_None in Hleave.
Qed.

Lemma dir_run_snoc evs ev : dir_run (evs ++ [ev]) = dir_step (dir_run evs) ev.
Proof. unfold dir_run. by rewrite foldl_app. Qed.

Lemma members_of_dir_step rooms ev roomId :
  members_of roomId (dir_step rooms ev) =
  match ev with
  | Joins sid roomId' =>
      if decide (roomId = roomId') then {[sid]} ∪ members_of roomId rooms
      else members_of roomId rooms
  | Disconnects sid => members_of roomId rooms ∖ {[sid]}
  end.
Proof.
  destruct ev as [sid roomId'|sid]; simpl.
  - rewrite members_of_join. by destruct (decide (roomId = roomId')) as [->|].
  - apply members_of_disconnect.
Qed.

Lemma joined_not_left_nil sid roomId : ¬ joined_not_left sid roomId [].
Proof. intros (before & after & Heq & _). by destruct before. Qed.

Lemma joined_not_left_snoc sid roomId evs ev :
  joined_not_left sid roomId (evs ++ [ev]) ↔
  ev = Joins sid roomId ∨ (joined_not_left sid roomId evs ∧ ev ≠ Disconnects sid).
Proof.
  split.
  - intros (before & after & Heq & Hstay).
    destruct after as [|last after' _] using rev_ind.
    + apply (app_inj_tail evs before) in Heq as [_ ->]. by left.
    + rewrite app_comm_cons, app_assoc in Heq.
      apply app_inj_tail in Heq as [-> ->]. right.
      rewrite elem_of_app, list_elem_of_singleton in Hstay. split.
      * exists before, after'. split; [done|]. tauto.
      * intros ->. tauto.
  - intros [->|[(before & after & -> & Hstay) Hne]].
    + exists evs, []. split; [done|]. apply not_elem_of_nil.
    + exists before, (after ++ [ev]). split.
      * by rewrite <- app_assoc.
      * rewrite elem_of_app, list_elem_of_singleton. intros [?|?]; [done|]. by apply Hne.
Qed.

(** A member of a room has sent ['join-room'] for it. *)
Lemma member_has_joined evs roomId sid :
  sid ∈ members_of roomId (dir_run evs) → Joins sid roomId ∈ evs.
Proof.
  induction evs as [|ev evs IH] using rev_ind.
  - unfold dir_run. simpl. rewrite members_of_empty. set_solver.
  - rewrite dir_run_snoc, members_of_dir_step, elem_of_app, list_elem_of_singleton.
    destruct ev as [sid' roomId'|sid'].
    + destruct (decide (roomId = roomId')) as [->|]; [|by auto].
      rewrite elem_of_union, elem_of_singleton. intros [->|]; by auto.
    + rewrite elem_of_difference. intros [? _]. by auto.
Qed.

(** No room of the directory is ever left with an empty member set. *)
Lemma dir_step_nonempty rooms ev :
  (∀ roomId room, rooms !! roomId = Some room → users room ≠ ∅) →
  ∀ roomId room, dir_step rooms ev !! roomId = Some room → users room ≠ ∅.
Proof.
  intros Hinv roomId room. destruct ev as [sid roomId'|sid]; simpl.
  - unfold join_room_dir. destruct (decide (roomId = roomId')) as [->|Hne].
    + rewrite lookup_alter_eq. intros Hroom.
      apply fmap_Some in Hroom as (room0 & _ & ->). simpl. set_solver.
    + rewrite lookup_alter_ne by done.
      destruct (decide (is_Some (rooms !! roomId'))); [by apply Hinv|].
      rewrite lookup_insert_ne by done. by apply Hinv.
  - rewrite lookup_disconnect_dir. intros Hroom.
    apply bind_Some in Hroom as (room0 & Hroom0 & Hleave).
    apply leave_room_Some in Hleave as [[_ ?]|[-> _]]; [done|]. by eapply Hinv.
Qed.

Lemma dir_run_nonempty evs roomId room :
  dir_run evs !! roomId = Some room → users room ≠ ∅.
Proof.
  revert roomId room. induction evs as [|ev evs IH] using rev_ind.
  - intros roomId room. unfold dir_run. simpl. by rewrite lookup_empty.
  - rewrite dir_run_snoc. by apply dir_step_nonempty.
Qed.

(** A join of a room the directory does not hold creates it with the
    joiner as its only member. *)
Lemma join_room_dir_fresh sid roomId (rooms : Directory) :
  rooms !! roomId = None →
  join_room_dir sid roomId rooms !! roomId = Some {| id := roomId; users := {[sid]} |}.
Proof.
  intros Hnone. unfold join_room_dir. rewrite lookup_alter_eq.
  rewrite decide_False by (rewrite Hnone; by intros [? ?]).
  rewrite lookup_insert_eq. simpl. unfold add_user. simpl.
  by rewrite (right_id_L ∅ (∪)).
Qed.

(** ** The directory along the event loop *)

Lemma rooms_step st ev :
  rooms (next st ev) = foldl dir_step (rooms st) (dir_events st ev).
Proof.
  unfold next. destruct ev as [sid|sid msg now|sid]; simpl;
    destruct (decide (sid ∈ SocketIO.sockets (io st))); try done.
  all: by destruct msg.
Qed.

Lemma run_cons st ev evs :
  run st (ev :: evs) =
  ((run (next st ev) evs).1, emitted st ev ++ (run (next st ev) evs).2).
Proof.
  unfold next, emitted. simpl. destruct (step st ev) as [st1 out1]. simpl.
  by destruct (run st1 evs).
Qed.

Lemma rooms_run st evs :
  rooms (run st evs).1 = foldl dir_step (rooms st) (dir_trace st evs).
Proof.
  revert st. induction evs as [|ev evs IH]; intros st; [done|].
  rewrite run_cons. simpl. by rewrite IH, rooms_step, foldl_app.
Qed.

(** The directory of a reachable state is the result of a sequence of
    calls of the two handlers. *)
Lemma reachable_dir_run st :
  reachable st → ∃ devs, rooms st = dir_run devs.
Proof. intros [evs <-]. exists (dir_trace init evs). apply rooms_run. Qed.

Lemma reachable_no_empty_room st roomId room :
  reachable st → rooms st !! roomId = Some room → users room ≠ ∅.
Proof.
  intros Hreach. destruct (reachable_dir_run st Hreach) as [devs ->].
  apply dir_run_nonempty.
Qed.

(** ** The adapter follows the directory *)

Lemma consistent_init : consistent init.
Proof.
  split.
  - intros roomId sid. unfold SocketIO.room_sids. simpl.
    rewrite lookup_empty, members_of_empty. set_solver.
  - intros roomId sid. simpl. rewrite members_of_empty. set_solver.
Qed.

Lemma consistent_step st ev : consistent st → consistent (next st ev).
Proof.
  intros [Hrooms Hlive]. unfold next.
  destruct ev as [sid|sid msg now|sid]; simpl;
    destruct (decide (sid ∈ SocketIO.sockets (io st))) as [Hsid|Hsid];
    try done.
  - split; simpl.
    + intros roomId sid'. rewrite SocketIOFacts.room_sids_connect.
      destruct (decide (roomId = sid)) as [->|Hne].
      * rewrite elem_of_union, elem_of_singleton, Hrooms. set_solver.
      * rewrite Hrooms. set_solver.
    + intros roomId sid' Hin. apply elem_of_union. right. by eapply Hlive.
  - destruct msg as [roomId| | | |]; try done.
    split; simpl.
    + intros roomId' sid'.
      rewrite SocketIOFacts.room_sids_join, members_of_join.
      destruct (decide (roomId' = roomId)) as [->|Hne].
      * rewrite !elem_of_union, Hrooms. tauto.
      * apply Hrooms.
    + intros roomId' sid'. rewrite members_of_join.
      destruct (decide (roomId' = roomId)) as [->|Hne]; [|by apply Hlive].
      rewrite elem_of_union, elem_of_singleton. intros [->|?]; [done|].
      by eapply Hlive.
  - split; simpl.
    + intros roomId sid'.
      rewrite SocketIOFacts.room_sids_close, members_of_disconnect.
      rewrite !elem_of_difference, Hrooms, elem_of_singleton.
      clear. set_solver.
    + intros roomId sid'. rewrite members_of_disconnect.
      rewrite !elem_of_difference. intros [? ?]. split; [by eapply Hlive|done].
Qed.

Lemma consistent_run st evs : consistent st → consistent (run st evs).1.
Proof.
  revert st. induction evs as [|ev evs IH]; intros st Hst; [done|].
  rewrite run_cons. simpl. by apply IH, consistent_step.
Qed.

Lemma reachable_consistent st : reachable st → consistent st.
Proof. intros [evs <-]. apply consistent_run, consistent_init. Qed.

Lemma reachable_next st ev : reachable st → reachable (next st ev).
Proof.
  intros [evs <-]. exists (evs ++ [ev]). unfold next.
  assert (Happ : ∀ st0 l1 l2, (run st0 (l1 ++ l2)).1 = (run (run st0 l1).1 l2).1).
  { intros st0 l1. revert st0. induction l1 as [|e l1 IH]; intros st0 l2; [done|].
    rewrite <- app_comm_cons, !run_cons. simpl. apply IH. }
  rewrite Happ, run_cons. done.
Qed.

(** In a reachable state, a broadcast to [roomId] reaches the members of
    the directory's room [roomId] and the live socket whose id is
    [roomId], each unless excepted. *)
Lemma reachable_recipients st roomId except sid :
  reachable st →
  sid ∈ SocketIO.recipients (io st) roomId except ↔
  (sid ∈ members_of roomId (rooms st)
   ∨ (sid = roomId ∧ roomId ∈ SocketIO.sockets (io st)))
  ∧ sid ∉ except.
Proof.
  intros Hreach. destruct (reachable_consistent st Hreach) as [Hrooms Hlive].
  rewrite SocketIOFacts.elem_of_recipients, Hrooms. split.
  - tauto.
  - intros [[Hmem|[-> ?]] ?]; repeat split; auto. by eapply Hlive.
Qed.

(** In a reachable state, what a live socket's own broadcasts except: the
    directory's members of the room named by its id, and itself. *)
Lemma reachable_socket_to_recipients st sid roomId m :
  reachable st →
  sid ∈ SocketIO.sockets (io st) →
  m ∈ SocketIO.recipients (io st) roomId (SocketIO.room_sids (io st) sid) ↔
  (m ∈ members_of roomId (rooms st)
   ∨ (m = roomId ∧ roomId ∈ SocketIO.sockets (io st)))
  ∧ m ≠ sid
  ∧ m ∉ members_of sid (rooms st).
Proof.
  intros Hreach Hsid. rewrite reachable_recipients by done.
  destruct (reachable_consistent st Hreach) as [Hrooms _]. rewrite Hrooms. split.
  - intros [Hin Hout]. split; [done|]. split.
    + intros ->. apply Hout. by right.
    + intros Hm. apply Hout. by left.
  - intros (Hin & Hne & Hout). split; [done|]. intros [?|[? _]]; done.
Qed.

(** The same for the broadcast of the ['join-room'] handler, which is
    made after [socket.join]. *)
Lemma join_room_recipients st sid roomId m :
  reachable st →
  sid ∈ SocketIO.sockets (io st) →
  m ∈ SocketIO.recipients (SocketIO.join sid roomId (io st)) roomId
        (SocketIO.room_sids (SocketIO.join sid roomId (io st)) sid) ↔
  (m ∈ members_of roomId (rooms st)
   ∨ (m = roomId ∧ roomId ∈ SocketIO.sockets (io st)))
  ∧ m ≠ sid
  ∧ m ∉ members_of sid (rooms st).
Proof.
  intros Hreach Hsid. destruct (reachable_consistent st Hreach) as [Hrooms Hlive].
  rewrite SocketIOFacts.elem_of_recipients, !SocketIOFacts.room_sids_join.
  rewrite (decide_True (P := roomId = roomId)) by done. simpl.
  assert (Hexcept : m ∈ (if decide (sid = roomId)
                         then {[sid]} ∪ SocketIO.room_sids (io st) roomId
                         else SocketIO.room_sids (io st) sid)
                    ↔ m = sid ∨ m ∈ members_of sid (rooms st)).
  { destruct (decide (sid = roomId)) as [<-|Hne].
    - rewrite elem_of_union, elem_of_singleton, Hrooms. tauto.
    - rewrite Hrooms. split; [intros [?|[? _]]; by auto|].
      intros [->|?]; [by right|by left]. }
  rewrite Hexcept, elem_of_union, elem_of_singleton, Hrooms. split.
  - intros ([->|Hin] & Hm & Hout); [by destruct Hout; left|]. tauto.
  - intros (Hin & Hne & Hout). split; [by right|]. split; [|tauto].
    destruct Hin as [Hin|[-> Hin]]; [by eapply Hlive|done].
Qed.

Lemma step_packet st sid msg now :
  sid ∈ SocketIO.sockets (io st) →
  step st (Packet sid msg now) =
  match msg with
  | JoinRoom roomId => on_join_room sid roomId st
  | Signal to signal => on_signal sid to signal st
  | LayerUpdate roomId layers => on_layer_update sid roomId layers st
  | CaptureTrigger roomId => on_capture_trigger roomId now st
  | BackgroundUpdate _ _ => (st, [])
  end.
Proof. intros Hsid. simpl. by rewrite decide_True. Qed.

(** What a ['join-room'] sends to a socket other than the joiner. *)
Lemma received_join_room st sid roomId now m :
  sid ∈ SocketIO.sockets (io st) →
  m ≠ sid →
  received m (emitted st (Packet sid (JoinRoom roomId) now))
  = if decide (m ∈ SocketIO.recipients (SocketIO.join sid roomId (io st)) roomId
                     (SocketIO.room_sids (SocketIO.join sid roomId (io st)) sid))
    then [UserJoined sid] else [].
Proof.
  intros Hsid Hne. unfold emitted. rewrite step_packet by done. simpl.
  rewrite received_cons. simpl. rewrite decide_False by done.
  apply SocketIOFacts.received_broadcast.
Qed.

Lemma elem_of_reached sid out :
  sid ∈ reached out ↔ ∃ msg, (sid, msg) ∈ out.
Proof.
  unfold reached. rewrite list_elem_of_fmap. split.
  - intros ([sid' msg] & -> & Hin). by exists msg.
  - intros [msg Hin]. by exists (sid, msg).
Qed.

(** A second ['join-room'] of a member for its room changes nothing in
    the directory. *)
Lemma join_room_dir_member sid roomId (rooms : Directory) :
  sid ∈ members_of roomId rooms → join_room_dir sid roomId rooms = rooms.
Proof.
  unfold members_of, join_room_dir. intros Hin.
  destruct (rooms !! roomId) as [room|] eqn:Hroom; [|set_solver].
  rewrite decide_True by (by eexists).
  apply map_eq. intros roomId'. destruct (decide (roomId' = roomId)) as [->|Hne].
  - rewrite lookup_alter_eq, Hroom. simpl. f_equal.
    destruct room as [rid rusers]. unfold add_user. simpl in *. f_equal.
    by apply subseteq_union_1_L, singleton_subseteq_l.
  - by rewrite lookup_alter_ne.
Qed.

(** ** The properties *)

(** C2.  For every room identifier and every finite sequence of
    ['join-room'] and ['disconnect'] events, the member set held for
    the room after the sequence is exactly the set of identities that
    have joined the room and have not disconnected since. *)
Theorem members_of_joined_not_left (evs : list DirEvent) (roomId sid : string) :
  sid ∈ members_of roomId (dir_run evs) ↔ joined_not_left sid roomId evs.
Proof.
  induction evs as [|ev evs IH] using rev_ind.
  - unfold dir_run. simpl. rewrite members_of_empty. split; [set_solver|].
    intros Hjoined. by apply joined_not_left_nil in Hjoined.
  - rewrite dir_run_snoc, members_of_dir_step, joined_not_left_snoc, <- IH.
    destruct ev as [sid' roomId'|sid'].
    + destruct (decide (roomId = roomId')) as [->|Hne].
      * rewrite elem_of_union, elem_of_singleton. split.
        -- intros [->|Hin]; [by left|right]. by split.
        -- intros [[= -> ]|[Hin _]]; by auto.
      * split; [intros Hin; right; by split|].
        intros [[= _ Heq]|[Hin _]]; [by subst|done].
    + rewrite elem_of_difference, elem_of_singleton. split.
      * intros [Hin Hne]. right. split; [done|]. by intros [= ->].
      * intros [|[Hin Hne]]; [done|]. split; [done|]. by intros ->.
Qed.

(** C3.  In every state reached by ['join-room'] and ['disconnect']
    events no room of the directory has an empty member set: an empty
    member set is only reported for a room the directory does not hold;
    when the last member of a room disconnects the room is deleted in
    that step, a query for it answers as for a room that never existed,
    and the next join creates it anew with the joiner as its only
    member. *)
Theorem empty_room_never_held (evs : list DirEvent) (roomId : string) :
  (∀ room, dir_run evs !! roomId = Some room → users room ≠ ∅)
  ∧ (members_of roomId (dir_run evs) = ∅ ↔ dir_run evs !! roomId = None)
  ∧ (∀ sid, members_of roomId (dir_run evs) = {[sid]} →
       let rooms' := disconnect_dir sid (dir_run evs) in
       rooms' !! roomId = None
       ∧ members_of roomId rooms' = members_of roomId ∅
       ∧ ∀ sid',
           join_room_dir sid' roomId rooms' !! roomId
             = Some {| id := roomId; users := {[sid']} |}
           ∧ join_room_dir sid' roomId rooms' !! roomId
             = join_room_dir sid' roomId ∅ !! roomId).
Proof.
  split; [by apply dir_run_nonempty|]. split.
  - unfold members_of. destruct (dir_run evs !! roomId) as [room|] eqn:Hroom.
    + apply dir_run_nonempty in Hroom. by split.
    + done.
  - intros sid Hlast rooms'.
    assert (Hgone : rooms' !! roomId = None).
    { destruct (rooms' !! roomId) as [room|] eqn:Hroom; [|done].
      pose proof (dir_run_nonempty (evs ++ [Disconnects sid]) roomId room) as Hne.
      rewrite dir_run_snoc in Hne. specialize (Hne Hroom).
      pose proof (members_of_disconnect sid (dir_run evs) roomId) as Hmem.
      unfold members_of at 1 in Hmem. fold rooms' in Hmem.
      rewrite Hroom, Hlast in Hmem. set_solver. }
    split; [done|]. split.
    + unfold members_of. by rewrite Hgone, lookup_empty.
    + intros sid'. rewrite !join_room_dir_fresh by (done || apply lookup_empty).
      done.
Qed.

Lemma empty_room_never_held_witness :
  members_of "abc123" (dir_run [Joins "C1" "abc123"]) = {["C1"]}
  ∧ disconnect_dir "C1" (dir_run [Joins "C1" "abc123"]) !! "abc123" = None.
Proof.
  assert (Hlast : members_of "abc123" (dir_run [Joins "C1" "abc123"]) = {["C1"]})
    by (vm_compute; reflexivity).
  split; [exact Hlast|].
  exact (proj1 (proj2 (proj2 (empty_room_never_held [Joins "C1" "abc123"] "abc123"))
                  "C1" Hlast)).
Defined.

(** C8, as the code has it.  A connection that has sent ['join-room']
    for one room identifier only is a member of at most one room.  (The
    handler does not take a connection out of the rooms it joined
    before, so without that condition the property fails.) *)
Theorem one_room_when_one_joined (evs : list DirEvent) (sid : string) :
  (∀ roomId1 roomId2,
     Joins sid roomId1 ∈ evs → Joins sid roomId2 ∈ evs → roomId1 = roomId2) →
  ∀ roomId1 roomId2,
    sid ∈ members_of roomId1 (dir_run evs) →
    sid ∈ members_of roomId2 (dir_run evs) →
    roomId1 = roomId2.
Proof.
  intros Hone roomId1 roomId2 Hin1 Hin2.
  apply Hone; by apply member_has_joined.
Qed.

Lemma one_room_when_one_joined_witness :
  (∀ roomId1 roomId2,
     Joins "C1" roomId1 ∈ [Joins "C1" "abc123"; Joins "C2" "abc123"] →
     Joins "C1" roomId2 ∈ [Joins "C1" "abc123"; Joins "C2" "abc123"] →
     roomId1 = roomId2)
  ∧ (∀ roomId1 roomId2,
       "C1" ∈ members_of roomId1 (dir_run [Joins "C1" "abc123"; Joins "C2" "abc123"]) →
       "C1" ∈ members_of roomId2 (dir_run [Joins "C1" "abc123"; Joins "C2" "abc123"]) →
       roomId1 = roomId2).
Proof.
  assert (Hone : ∀ roomId1 roomId2,
     Joins "C1" roomId1 ∈ [Joins "C1" "abc123"; Joins "C2" "abc123"] →
     Joins "C1" roomId2 ∈ [Joins "C1" "abc123"; Joins "C2" "abc123"] →
     roomId1 = roomId2).
  { intros roomId1 roomId2 Hin1 Hin2.
    apply elem_of_cons in Hin1 as [Heq1|Hin1];
      [|by apply elem_of_cons in Hin1 as [?|?%elem_of_nil]].
    apply elem_of_cons in Hin2 as [Heq2|Hin2];
      [|by apply elem_of_cons in Hin2 as [?|?%elem_of_nil]].
    congruence. }
  split; [exact Hone|].
  exact (one_room_when_one_joined [Joins "C1" "abc123"; Joins "C2" "abc123"] "C1" Hone).
Defined.

(** C8, as stated, fails: after joining two rooms a connection is a
    member of both. *)
Lemma member_of_two_rooms :
  ¬ (∀ (evs : list DirEvent) (sid roomId1 roomId2 : string),
       sid ∈ members_of roomId1 (dir_run evs) →
       sid ∈ members_of roomId2 (dir_run evs) →
       roomId1 = roomId2).
Proof.
  intros Hone.
  specialize (Hone [Joins "C1" "abc123"; Joins "C1" "xyz789"] "C1" "abc123" "xyz789").
  assert (Heq : "abc123" = "xyz789"); [|discriminate Heq].
  apply Hone; vm_compute; reflexivity.
Qed.

(** C4, as the code has it.  A ['signal'] packet from connection [a]
    naming [b] with payload [signal] changes no state (nothing is
    queued) and produces copies of the one packet tagged with [a] only,
    so that [a] sees no error.  When [b] is connected, [b] observes
    exactly that packet, once.  When [b] is not connected, [b] observes
    nothing; the packet is dropped when the directory has no room named
    [b], and otherwise goes, once, to every member of that room. *)
Theorem signal_relayed_or_dropped (st : State) (a b : string) (signal : json) (now : Z) :
  reachable st →
  a ∈ SocketIO.sockets (io st) →
  next st (Packet a (Signal b signal) now) = st
  ∧ (∀ d, d ∈ emitted st (Packet a (Signal b signal) now) → d.2 = SignalFrom a signal)
  ∧ (b ∈ SocketIO.sockets (io st) →
     received b (emitted st (Packet a (Signal b signal) now)) = [SignalFrom a signal])
  ∧ (b ∉ SocketIO.sockets (io st) →
     received b (emitted st (Packet a (Signal b signal) now)) = []
     ∧ (members_of b (rooms st) = ∅ →
        emitted st (Packet a (Signal b signal) now) = [])
     ∧ ∀ m, m ∈ members_of b (rooms st) →
            received m (emitted st (Packet a (Signal b signal) now))
              = [SignalFrom a signal]).
Proof.
  intros Hreach Ha. unfold next, emitted. rewrite step_packet by done. simpl.
  split; [done|]. split; [|split].
  - intros d Hd. by apply SocketIOFacts.elem_of_broadcast in Hd as [? _].
  - intros Hb. unfold SocketIO.io_to_emit.
    rewrite SocketIOFacts.received_broadcast, decide_True; [done|].
    apply reachable_recipients; [done|]. split; [by right|set_solver].
  - intros Hb. unfold SocketIO.io_to_emit. split; [|split].
    + rewrite SocketIOFacts.received_broadcast, decide_False; [done|].
      rewrite SocketIOFacts.elem_of_recipients. tauto.
    + intros Hnone. unfold SocketIO.broadcast.
      assert (Hnobody : SocketIO.recipients (io st) b ∅ = []).
      { destruct (SocketIO.recipients (io st) b ∅) as [|m ms] eqn:Hrec; [done|].
        assert (Hm : m ∈ SocketIO.recipients (io st) b ∅) by (rewrite Hrec; left).
        apply reachable_recipients in Hm as [[Hm|[_ Hm]] _]; [|done..].
        rewrite Hnone in Hm. set_solver. }
      by rewrite Hnobody.
    + intros m Hm. rewrite SocketIOFacts.received_broadcast, decide_True; [done|].
      apply reachable_recipients; [done|]. split; [by left|set_solver].
Qed.

Lemma connected2_reachable : reachable connected2.
Proof. by eexists. Qed.

Lemma lobby2_reachable : reachable lobby2.
Proof. by eexists. Qed.

Lemma two_rooms_reachable : reachable two_rooms.
Proof. by eexists. Qed.

Lemma lobby2_named_reachable : reachable lobby2_named.
Proof. by eexists. Qed.

Lemma after_c3_reachable : reachable after_c3.
Proof. by eexists. Qed.

Lemma signal_relayed_or_dropped_witness :
  received "C2" (emitted connected2 (Packet "C1" (Signal "C2" offer) 0))
    = [SignalFrom "C1" offer]
  ∧ emitted connected2 (Packet "C1" (Signal "C9" offer) 0) = [].
Proof.
  assert (Hc1 : "C1" ∈ SocketIO.sockets (io connected2)) by (vm_compute; reflexivity).
  assert (Hc2 : "C2" ∈ SocketIO.sockets (io connected2)) by (vm_compute; reflexivity).
  assert (Hc9 : "C9" ∉ SocketIO.sockets (io connected2)) by (vm_compute; discriminate).
  assert (Hnone : members_of "C9" (rooms connected2) = ∅) by reflexivity.
  split.
  - exact (proj1 (proj2 (proj2 (signal_relayed_or_dropped connected2 "C1" "C2" offer 0
                                  connected2_reachable Hc1))) Hc2).
  - exact (proj1 (proj2 (proj2 (proj2 (proj2
             (signal_relayed_or_dropped connected2 "C1" "C9" offer 0
                connected2_reachable Hc1))) Hc9)) Hnone).
Defined.

(** C4, as stated, fails: a signal for a connection that is gone is not
    always dropped.  [C2] is in the room named ["C3"]; [C3] has closed;
    the signal of [C1] for [C3] is written to [C2]. *)
Lemma signal_for_absent_delivered :
  ¬ (∀ (st : State) (a b : string) (signal : json) (now : Z),
       reachable st →
       a ∈ SocketIO.sockets (io st) →
       b ∉ SocketIO.sockets (io st) →
       emitted st (Packet a (Signal b signal) now) = []).
Proof.
  intros Hall.
  assert (Hdropped : emitted after_c3 (Packet "C1" (Signal "C3" offer) 0) = []).
  { apply Hall; [apply after_c3_reachable|vm_compute; reflexivity|].
    vm_compute. discriminate. }
  vm_compute in Hdropped. discriminate Hdropped.
Qed.

(** C5, as the code has it.  A ['capture-trigger'] naming a room emits
    exactly one ['capture-now'] with the handler's timestamp to every
    member of that room, one to the live connection whose own identity
    is the room identifier (if there is one), and none to anybody
    else. *)
Theorem capture_now_fanout (st : State) (sid roomId : string) (now : Z) (m : string) :
  reachable st →
  sid ∈ SocketIO.sockets (io st) →
  (m ∈ members_of roomId (rooms st) →
   received m (emitted st (Packet sid (CaptureTrigger roomId) now)) = [CaptureNow now])
  ∧ (m = roomId → roomId ∈ SocketIO.sockets (io st) →
     received m (emitted st (Packet sid (CaptureTrigger roomId) now)) = [CaptureNow now])
  ∧ (m ∉ members_of roomId (rooms st) →
     m ≠ roomId ∨ roomId ∉ SocketIO.sockets (io st) →
     received m (emitted st (Packet sid (CaptureTrigger roomId) now)) = []).
Proof.
  intros Hreach Hsid. unfold emitted. rewrite step_packet by done. simpl.
  unfold SocketIO.io_to_emit. rewrite SocketIOFacts.received_broadcast.
  pose proof (reachable_recipients st roomId ∅ m Hreach) as Hrec.
  split; [|split].
  - intros Hm. rewrite decide_True; [done|]. apply Hrec. split; [by left|set_solver].
  - intros -> Hlive. rewrite decide_True; [done|]. apply Hrec.
    split; [by right|set_solver].
  - intros Hout Hother. rewrite decide_False; [done|]. rewrite Hrec. tauto.
Qed.

Lemma capture_now_fanout_witness :
  received "C2" (emitted lobby2 (Packet "C1" (CaptureTrigger "abc123") 1700000000000))
    = [CaptureNow 1700000000000].
Proof.
  assert (Hc1 : "C1" ∈ SocketIO.sockets (io lobby2)) by (vm_compute; reflexivity).
  assert (Hc2 : "C2" ∈ members_of "abc123" (rooms lobby2)) by (vm_compute; reflexivity).
  exact (proj1 (capture_now_fanout lobby2 "C1" "abc123" 1700000000000 "C2"
                  lobby2_reachable Hc1) Hc2).
Defined.

(** C5, as stated, fails: a trigger that names the identity of a live
    connection reaches that connection, which is not a member of the
    room so named. *)
Lemma capture_now_outside_room :
  ¬ (∀ (st : State) (sid roomId : string) (now : Z) (m : string),
       reachable st →
       sid ∈ SocketIO.sockets (io st) →
       (m ∈ members_of roomId (rooms st) →
        received m (emitted st (Packet sid (CaptureTrigger roomId) now)) = [CaptureNow now])
       ∧ (m ∉ members_of roomId (rooms st) →
          received m (emitted st (Packet sid (CaptureTrigger roomId) now)) = [])).
Proof.
  intros Hall.
  destruct (Hall connected2 "C1" "C2" 0%Z "C2" connected2_reachable) as [_ Hnone].
  { vm_compute; reflexivity. }
  assert (Hout : "C2" ∉ members_of "C2" (rooms connected2)) by (vm_compute; discriminate).
  specialize (Hnone Hout). vm_compute in Hnone. discriminate Hnone.
Qed.

(** What a ['layer-update'] emits, seen from one socket. *)
Lemma received_layer_update st sid roomId layers now m :
  reachable st →
  sid ∈ SocketIO.sockets (io st) →
  next st (Packet sid (LayerUpdate roomId layers) now) = st
  ∧ (m ∈ members_of roomId (rooms st) → m ≠ sid → m ∉ members_of sid (rooms st) →
     received m (emitted st (Packet sid (LayerUpdate roomId layers) now))
       = [LayersReplaced layers])
  ∧ (m = sid ∨ m ∈ members_of sid (rooms st) →
     received m (emitted st (Packet sid (LayerUpdate roomId layers) now)) = []).
Proof.
  intros Hreach Hsid. unfold next, emitted. rewrite step_packet by done. simpl.
  unfold SocketIO.socket_to_emit. rewrite !SocketIOFacts.received_broadcast.
  pose proof (reachable_socket_to_recipients st sid roomId m Hreach Hsid) as Hrec.
  split; [done|]. split.
  - intros Hm Hne Hout. rewrite decide_True; [done|]. apply Hrec. by auto.
  - intros Hexcepted. rewrite decide_False; [done|]. rewrite Hrec. tauto.
Qed.

(** C6, as the code has it.  A ['layer-update'] from a sender naming a
    room gives the full layer list, once, to every member of the room
    except the sender and the members of the room named after the
    sender's identity, who get nothing; after two updates in a row (from
    different senders or not), what any member that the later update
    reaches received last is the later list as it was sent: the first
    list, if it was received at all, comes before it and is not combined
    with it. *)
Theorem layer_update_last_write_wins (st : State) (s1 s2 roomId : string)
    (layers_a layers_b : json) (t1 t2 : Z) :
  reachable st →
  s1 ∈ SocketIO.sockets (io st) →
  s2 ∈ SocketIO.sockets (io st) →
  let first := Packet s1 (LayerUpdate roomId layers_a) t1 in
  let second := Packet s2 (LayerUpdate roomId layers_b) t2 in
  (∀ m, m ∈ members_of roomId (rooms st) → m ≠ s1 → m ∉ members_of s1 (rooms st) →
        received m (emitted st first) = [LayersReplaced layers_a])
  ∧ (∀ m, m = s1 ∨ m ∈ members_of s1 (rooms st) →
          received m (emitted st first) = [])
  ∧ (∀ m, m ∈ members_of roomId (rooms (next st first)) →
          m ≠ s2 → m ∉ members_of s2 (rooms (next st first)) →
          received m (emitted st first ++ emitted (next st first) second)
            = (if decide (m = s1 ∨ m ∈ members_of s1 (rooms st))
               then [] else [LayersReplaced layers_a])
              ++ [LayersReplaced layers_b]
          ∧ last (received m (emitted st first ++ emitted (next st first) second))
            = Some (LayersReplaced layers_b)).
Proof.
  intros Hreach Hs1 Hs2 first second.
  assert (Hfirst : ∀ m, next st first = st
     ∧ (m ∈ members_of roomId (rooms st) → m ≠ s1 → m ∉ members_of s1 (rooms st) →
        received m (emitted st first) = [LayersReplaced layers_a])
     ∧ (m = s1 ∨ m ∈ members_of s1 (rooms st) → received m (emitted st first) = []))
    by (intros m; by apply received_layer_update).
  destruct (Hfirst s1) as (Hsame & _ & _).
  split; [intros m; by apply Hfirst|]. split; [intros m; by apply Hfirst|].
  intros m. rewrite Hsame. intros Hm Hm2 Hm2'.
  destruct (received_layer_update st s2 roomId layers_b t2 m Hreach Hs2)
    as (_ & Hsecond & _).
  assert (Hseq : received m (emitted st first ++ emitted st second)
            = (if decide (m = s1 ∨ m ∈ members_of s1 (rooms st))
               then [] else [LayersReplaced layers_a])
              ++ [LayersReplaced layers_b]).
  { rewrite received_app. unfold second. rewrite (Hsecond Hm Hm2 Hm2').
    destruct (Hfirst m) as (_ & Hrecv & Hnone).
    destruct (decide (m = s1 ∨ m ∈ members_of s1 (rooms st))) as [Hex|Hin].
    - by rewrite (Hnone Hex).
    - rewrite Hrecv; [done|done|tauto..]. }
  split; [done|]. rewrite Hseq. apply last_snoc.
Qed.

Lemma layer_update_last_write_wins_witness :
  received "C1"
    (emitted lobby2 (Packet "C1" (LayerUpdate "abc123" layers2) 0)
     ++ emitted (next lobby2 (Packet "C1" (LayerUpdate "abc123" layers2) 0))
          (Packet "C2" (LayerUpdate "abc123" layers1) 0))
  = [LayersReplaced layers1].
Proof.
  assert (Hc1 : "C1" ∈ SocketIO.sockets (io lobby2)) by (vm_compute; reflexivity).
  assert (Hc2 : "C2" ∈ SocketIO.sockets (io lobby2)) by (vm_compute; reflexivity).
  assert (Hne : "C1" ≠ "C2") by discriminate.
  assert (Hm : "C1" ∈ members_of "abc123"
            (rooms (next lobby2 (Packet "C1" (LayerUpdate "abc123" layers2) 0))))
    by (vm_compute; reflexivity).
  assert (Hout : "C1" ∉ members_of "C2"
            (rooms (next lobby2 (Packet "C1" (LayerUpdate "abc123" layers2) 0))))
    by (vm_compute; discriminate).
  exact (proj1 (proj2 (proj2 (layer_update_last_write_wins lobby2 "C1" "C2" "abc123"
                                layers2 layers1 0 0 lobby2_reachable Hc1 Hc2))
                  "C1" Hm Hne Hout)).
Defined.

(** C6, as stated, fails: [C2] is a member of ["abc123"] and also of the
    room named ["C1"]; the ['layer-update'] of [C1] for ["abc123"] is
    not written to [C2]. *)
Lemma layer_update_skips_member :
  ¬ (∀ (st : State) (sid roomId : string) (layers : json) (now : Z) (m : string),
       reachable st →
       sid ∈ SocketIO.sockets (io st) →
       m ∈ members_of roomId (rooms st) →
       m ≠ sid →
       received m (emitted st (Packet sid (LayerUpdate roomId layers) now))
         = [LayersReplaced layers]).
Proof.
  intros Hall.
  assert (Hgot : received "C2"
                   (emitted lobby2_named (Packet "C1" (LayerUpdate "abc123" layers2) 0))
                 = [LayersReplaced layers2]).
  { apply Hall; [apply lobby2_named_reachable|vm_compute; reflexivity..|discriminate]. }
  vm_compute in Hgot. discriminate Hgot.
Qed.

(** C7, as the code has it.  A ['layer-update'] or ['capture-trigger']
    reaches only members of the room that the packet names and the live
    connection whose own identity is that name; the handlers do not look
    at the rooms of the connection that sent the packet. *)
Theorem fanout_within_named_room (st : State) (sid roomId : string) (layers : json)
    (now : Z) (m : string) :
  reachable st →
  (m ∈ reached (emitted st (Packet sid (LayerUpdate roomId layers) now)) →
   m ∈ members_of roomId (rooms st)
   ∨ (m = roomId ∧ roomId ∈ SocketIO.sockets (io st)))
  ∧ (m ∈ reached (emitted st (Packet sid (CaptureTrigger roomId) now)) →
     m ∈ members_of roomId (rooms st)
     ∨ (m = roomId ∧ roomId ∈ SocketIO.sockets (io st))).
Proof.
  intros Hreach. unfold emitted. simpl.
  destruct (decide (sid ∈ SocketIO.sockets (io st))) as [Hsid|Hsid]; simpl;
    [|split; intros Hin; by apply elem_of_nil in Hin].
  split; intros Hin; apply elem_of_reached in Hin as [msg Hin];
    apply SocketIOFacts.elem_of_broadcast in Hin as [_ Hin]; simpl in Hin;
    by apply reachable_recipients in Hin as [? _].
Qed.

Lemma fanout_within_named_room_witness :
  "C2" ∈ reached (emitted lobby2 (Packet "C1" (LayerUpdate "abc123" layers2) 0))
  ∧ ("C2" ∈ members_of "abc123" (rooms lobby2)
     ∨ ("C2" = "abc123" ∧ "abc123" ∈ SocketIO.sockets (io lobby2))).
Proof.
  assert (Hin : "C2" ∈ reached (emitted lobby2 (Packet "C1" (LayerUpdate "abc123" layers2) 0))).
  { apply elem_of_reached. exists (LayersReplaced layers2).
    apply elem_of_received. vm_compute. left. }
  split; [exact Hin|].
  exact (proj1 (fanout_within_named_room lobby2 "C1" "abc123" layers2 0 "C2"
                  lobby2_reachable) Hin).
Defined.

(** C7, as stated, fails: a connection of one room that names another
    room in a ['layer-update'] reaches the members of that other room. *)
Lemma fanout_outside_own_room :
  ¬ (∀ (st : State) (sid roomId : string) (layers : json) (now : Z) (m : string),
       reachable st →
       sid ∈ SocketIO.sockets (io st) →
       m ∈ reached (emitted st (Packet sid (LayerUpdate roomId layers) now)) →
       ∃ own, sid ∈ members_of own (rooms st) ∧ m ∈ members_of own (rooms st)).
Proof.
  intros Hall.
  destruct (Hall two_rooms "C1" "xyz789" layers2 0%Z "C2" two_rooms_reachable)
    as (own & Hsender & Hm).
  - vm_compute; reflexivity.
  - apply elem_of_reached. exists (LayersReplaced layers2).
    apply elem_of_received. vm_compute. left.
  - assert (Hown1 : own = "abc123").
    { destruct (decide (own = "abc123")) as [|Hne]; [done|].
      exfalso. revert Hsender. unfold members_of.
      change (rooms two_rooms) with
        (join_room_dir "C2" "xyz789" (join_room_dir "C1" "abc123" ∅)).
      fold (members_of own (join_room_dir "C2" "xyz789" (join_room_dir "C1" "abc123" ∅))).
      rewrite !members_of_join, members_of_empty.
      repeat case_decide; subst; set_solver. }
    subst own. revert Hm. vm_compute. discriminate.
Qed.

(** C9, as the code has it.  A second ['join-room'] of a member for its
    room leaves the directory, and so the member set, as it was, and
    still sends ['user-joined'] with the joiner's identity to every
    other member of the room, except to the members of the room named
    after the joiner's identity, who get nothing. *)
Theorem rejoin_same_members_still_notifies (st : State) (sid roomId : string) (now : Z) :
  reachable st →
  sid ∈ members_of roomId (rooms st) →
  rooms (next st (Packet sid (JoinRoom roomId) now)) = rooms st
  ∧ members_of roomId (rooms (next st (Packet sid (JoinRoom roomId) now)))
    = members_of roomId (rooms st)
  ∧ (∀ m, m ∈ members_of roomId (rooms st) → m ≠ sid →
          m ∉ members_of sid (rooms st) →
          received m (emitted st (Packet sid (JoinRoom roomId) now)) = [UserJoined sid])
  ∧ (∀ m, m ≠ sid → m ∈ members_of sid (rooms st) →
          received m (emitted st (Packet sid (JoinRoom roomId) now)) = []).
Proof.
  intros Hreach Hmember.
  destruct (reachable_consistent st Hreach) as [Hrooms Hlive].
  assert (Hsid : sid ∈ SocketIO.sockets (io st)) by (by eapply Hlive).
  split; [|split; [|split]].
  - unfold next. rewrite step_packet by done. simpl.
    by apply join_room_dir_member.
  - unfold next. rewrite step_packet by done. simpl.
    by rewrite join_room_dir_member.
  - intros m Hm Hne Hout. rewrite received_join_room by done.
    rewrite decide_True; [done|]. apply join_room_recipients; by auto.
  - intros m Hne Hin. rewrite received_join_room by done.
    rewrite decide_False; [done|]. rewrite join_room_recipients by done. tauto.
Qed.

Lemma rejoin_same_members_still_notifies_witness :
  rooms (next lobby2 (Packet "C1" (JoinRoom "abc123") 0)) = rooms lobby2
  ∧ received "C2" (emitted lobby2 (Packet "C1" (JoinRoom "abc123") 0)) = [UserJoined "C1"].
Proof.
  assert (Hc1 : "C1" ∈ members_of "abc123" (rooms lobby2)) by (vm_compute; reflexivity).
  assert (Hc2 : "C2" ∈ members_of "abc123" (rooms lobby2)) by (vm_compute; reflexivity).
  assert (Hne : "C2" ≠ "C1") by discriminate.
  assert (Hout : "C2" ∉ members_of "C1" (rooms lobby2)) by (vm_compute; discriminate).
  split.
  - exact (proj1 (rejoin_same_members_still_notifies lobby2 "C1" "abc123" 0
                    lobby2_reachable Hc1)).
  - exact (proj1 (proj2 (proj2 (rejoin_same_members_still_notifies lobby2 "C1" "abc123" 0
                                  lobby2_reachable Hc1))) "C2" Hc2 Hne Hout).
Defined.

(** C9, as stated, fails: [C2] is a member of ["abc123"] and also of the
    room named ["C1"]; when [C1] joins ["abc123"] again, no
    ['user-joined'] is written to [C2]. *)
Lemma rejoin_skips_member :
  ¬ (∀ (st : State) (sid roomId : string) (now : Z) (m : string),
       reachable st →
       sid ∈ members_of roomId (rooms st) →
       m ∈ members_of roomId (rooms st) →
       m ≠ sid →
       received m (emitted st (Packet sid (JoinRoom roomId) now)) = [UserJoined sid]).
Proof.
  intros Hall.
  assert (Hgot : received "C2" (emitted lobby2_named (Packet "C1" (JoinRoom "abc123") 0))
                 = [UserJoined "C1"]).
  { apply Hall; [apply lobby2_named_reachable|vm_compute; reflexivity..|discriminate]. }
  vm_compute in Hgot. discriminate Hgot.
Qed.

(** C10.  All ['capture-now'] notices of one trigger carry one and the
    same timestamp, the one reading of the clock that the handler makes;
    the notices of another trigger carry that trigger's own reading. *)
Theorem capture_now_one_timestamp (st : State) (sid roomId : string) (now : Z)
    (d1 d2 : Delivery) :
  d1 ∈ emitted st (Packet sid (CaptureTrigger roomId) now) →
  d2 ∈ emitted st (Packet sid (CaptureTrigger roomId) now) →
  d1.2 = CaptureNow now ∧ d2.2 = d1.2.
Proof.
  unfold emitted. simpl.
  destruct (decide (sid ∈ SocketIO.sockets (io st))); simpl;
    [|intros Hin; by apply elem_of_nil in Hin].
  intros Hd1 Hd2.
  apply SocketIOFacts.elem_of_broadcast in Hd1 as [-> _].
  by apply SocketIOFacts.elem_of_broadcast in Hd2 as [-> _].
Qed.

Lemma capture_now_one_timestamp_witness :
  ("C1", CaptureNow 1700000000000).2 = CaptureNow 1700000000000
  ∧ ("C2", CaptureNow 1700000000000).2 = ("C1", CaptureNow 1700000000000).2.
Proof.
  apply (capture_now_one_timestamp lobby2 "C1" "abc123" 1700000000000).
  - apply elem_of_received. vm_compute. left.
  - apply elem_of_received. vm_compute. left.
Defined.

(** Two triggers in the same state with different clock readings give
    different notices. *)
Example capture_now_timestamps_differ :
  received "C2" (emitted lobby2 (Packet "C1" (CaptureTrigger "abc123") 1700000000000))
  ≠ received "C2" (emitted lobby2 (Packet "C1" (CaptureTrigger "abc123") 1700000000999)).
Proof. vm_compute. discriminate. Qed.

(** A ['background-update'] packet has no listener: nothing is emitted
    and nothing changes, whoever sends it and whatever it carries. *)
Lemma background_update_ignored st sid roomId background now :
  step st (Packet sid (BackgroundUpdate roomId background) now) = (st, []).
Proof. simpl. by destruct (decide (sid ∈ SocketIO.sockets (io st))). Qed.

(** No handler emits a ['background-update'] at all. *)
Lemma background_never_emitted st ev d background :
  d ∈ emitted st ev → d.2 ≠ BackgroundReplaced background.
Proof.
  unfold emitted. intros Hd Hmsg.
  destruct ev as [sid|sid msg now|sid]; simpl in Hd;
    destruct (decide (sid ∈ SocketIO.sockets (io st))); simpl in Hd;
    try (by apply elem_of_nil in Hd).
  - destruct msg; simpl in Hd; try (by apply elem_of_nil in Hd).
    + apply elem_of_cons in Hd as [->|Hd]; [done|].
      apply SocketIOFacts.elem_of_broadcast in Hd as [Hd _]. congruence.
    + apply SocketIOFacts.elem_of_broadcast in Hd as [Hd _]. congruence.
    + apply SocketIOFacts.elem_of_broadcast in Hd as [Hd _]. congruence.
    + apply SocketIOFacts.elem_of_broadcast in Hd as [Hd _]. congruence.
  - unfold user_left_notices in Hd.
    apply list_elem_of_In, in_flat_map in Hd as (entry & _ & Hd).
    apply list_elem_of_In in Hd. case_decide; [|by apply elem_of_nil in Hd].
    apply SocketIOFacts.elem_of_broadcast in Hd as [Hd _]. congruence.
Qed.

(** C1.  The code at the failing input: [C1] and [C2] are the members
    of ["abc123"]; a ['background-update'] from [C1] reaches nobody,
    where a ['layer-update'] from [C1] reaches [C2]. *)
Theorem background_update_not_relayed :
  "C1" ∈ members_of "abc123" (rooms lobby2)
  ∧ "C2" ∈ members_of "abc123" (rooms lobby2)
  ∧ emitted lobby2
      (Packet "C1" (BackgroundUpdate "abc123" (JObj [("background", JStr "#ff0000")])) 0)
    = []
  ∧ received "C2" (emitted lobby2 (Packet "C1" (LayerUpdate "abc123" layers2) 0))
    = [LayersReplaced layers2].
Proof. repeat split; vm_compute; reflexivity. Qed.

(** ** The scenario of two connections in one room *)

Example scenario_signal_and_capture :
  received "C2" (emitted lobby2 (Packet "C1" (Signal "C2" offer) 0))
    = [SignalFrom "C1" offer]
  ∧ emitted lobby2 (Packet "C1" (CaptureTrigger "abc123") 42)
    = [("C1", CaptureNow 42); ("C2", CaptureNow 42)].
Proof. split; vm_compute; reflexivity. Qed.

Example scenario_teardown :
  emitted lobby2 (Closed "C2") = [("C1", UserLeft "C2")]
  ∧ elements (members_of "abc123" (rooms (next lobby2 (Closed "C2")))) = ["C1"]
  ∧ rooms (next (next lobby2 (Closed "C2")) (Closed "C1")) !! "abc123" = None.
Proof. repeat split; vm_compute; reflexivity. Qed.


(** ** More on the server: invariants of the reachable states *)

(** X1.  Only live connections are members: in every reachable state a
    member of a room of the directory is a connected socket. *)
Theorem members_are_connected (st : State) (roomId sid : string) :
  reachable st →
  sid ∈ members_of roomId (rooms st) →
  sid ∈ SocketIO.sockets (io st).
Proof.
  intros Hreach Hmember.
  destruct (reachable_consistent st Hreach) as [_ Hlive]. by eapply Hlive.
Qed.

Lemma members_are_connected_witness :
  "C2" ∈ SocketIO.sockets (io lobby2).
Proof.
  assert (Hc2 : "C2" ∈ members_of "abc123" (rooms lobby2)) by (vm_compute; reflexivity).
  exact (members_are_connected lobby2 "abc123" "C2" lobby2_reachable Hc2).
Defined.

(** X2.  The Socket.IO room and the directory do not drift apart: in
    every reachable state the sockets of the Socket.IO room [roomId] are
    the directory's members of [roomId], and the socket whose own id is
    [roomId] when it is live. *)
Theorem socketio_room_matches_directory (st : State) (roomId sid : string) :
  reachable st →
  sid ∈ SocketIO.room_sids (io st) roomId ↔
  sid ∈ members_of roomId (rooms st)
  ∨ (sid = roomId ∧ roomId ∈ SocketIO.sockets (io st)).
Proof.
  intros Hreach. destruct (reachable_consistent st Hreach) as [Hrooms _].
  apply Hrooms.
Qed.

Lemma socketio_room_matches_directory_witness :
  "C1" ∈ SocketIO.room_sids (io two_rooms) "abc123" ↔
  "C1" ∈ members_of "abc123" (rooms two_rooms)
  ∨ ("C1" = "abc123" ∧ "abc123" ∈ SocketIO.sockets (io two_rooms)).
Proof.
  exact (socketio_room_matches_directory two_rooms "abc123" "C1" two_rooms_reachable).
Defined.

Lemma dir_step_id_is_key rooms ev :
  (∀ roomId room, rooms !! roomId = Some room → id room = roomId) →
  ∀ roomId room, dir_step rooms ev !! roomId = Some room → id room = roomId.
Proof.
  intros Hinv roomId room. destruct ev as [sid roomId'|sid]; simpl.
  - unfold join_room_dir. destruct (decide (roomId = roomId')) as [->|Hne].
    + rewrite lookup_alter_eq. intros Hroom.
      apply fmap_Some in Hroom as (room0 & Hroom0 & ->). simpl.
      destruct (decide (is_Some (rooms !! roomId'))); [by apply Hinv|].
      rewrite lookup_insert_eq in Hroom0. by injection Hroom0 as <-.
    + rewrite lookup_alter_ne by done.
      destruct (decide (is_Some (rooms !! roomId'))); [by apply Hinv|].
      rewrite lookup_insert_ne by done. by apply Hinv.
  - rewrite lookup_disconnect_dir. intros Hroom.
    apply bind_Some in Hroom as (room0 & Hroom0 & Hleave).
    unfold leave_room in Hleave. repeat case_decide; simplify_eq; simpl;
      by eapply Hinv.
Qed.

(** X3.  Every room of the directory is stored under its own
    identifier: the [id] field of a room equals its key. *)
Theorem room_id_is_its_key (st : State) (roomId : string) (room : Room) :
  reachable st →
  rooms st !! roomId = Some room →
  id room = roomId.
Proof.
  intros Hreach. destruct (reachable_dir_run st Hreach) as [devs ->].
  revert roomId room. induction devs as [|ev devs IH] using rev_ind.
  - intros roomId room. unfold dir_run. simpl. by rewrite lookup_empty.
  - rewrite dir_run_snoc. by apply dir_step_id_is_key.
Qed.

Lemma room_id_is_its_key_witness :
  id {| id := "abc123"; users := {["C1"]} ∪ ({["C2"]} ∪ ∅) |} = "abc123".
Proof.
  apply (room_id_is_its_key lobby2 "abc123" _ lobby2_reachable).
  vm_compute. reflexivity.
Defined.

(** ** More on the server: who is told what *)

Lemma received_none sid out :
  (∀ d, d ∈ out → d.1 ≠ sid) → received sid out = [].
Proof.
  intros Hout. destruct (received sid out) as [|msg msgs] eqn:Hrecv; [done|].
  assert (Hin : msg ∈ received sid out) by (rewrite Hrecv; left).
  apply elem_of_received in Hin. by apply Hout in Hin.
Qed.

Lemma received_flat_map {A} sid (f : A → list Delivery) (l : list A) :
  received sid (flat_map f l) = flat_map (λ a, received sid (f a)) l.
Proof.
  induction l as [|a l IH]; [done|]. simpl. by rewrite received_app, IH.
Qed.

(** X4.  What a ['join-room'] sends: the joiner gets exactly one
    ['room-joined'] carrying the room and its own identity, and no
    ['user-joined'].  Any other socket gets exactly one ['user-joined']
    naming the joiner if it was a member of the room before (or is the
    live connection after whose id the room is named) and is not a
    member of the room named after the joiner's identity; it gets
    nothing if it is a member of that room, or is not concerned by the
    joined room. *)
Theorem join_room_notices (st : State) (sid roomId : string) (now : Z) (m : string) :
  reachable st →
  sid ∈ SocketIO.sockets (io st) →
  received sid (emitted st (Packet sid (JoinRoom roomId) now)) = [RoomJoined roomId sid]
  ∧ (m ≠ sid →
     (m ∈ members_of roomId (rooms st)
      ∨ (m = roomId ∧ roomId ∈ SocketIO.sockets (io st)) →
      m ∉ members_of sid (rooms st) →
      received m (emitted st (Packet sid (JoinRoom roomId) now)) = [UserJoined sid])
     ∧ (m ∈ members_of sid (rooms st) →
        received m (emitted st (Packet sid (JoinRoom roomId) now)) = [])
     ∧ (m ∉ members_of roomId (rooms st) →
        m ≠ roomId ∨ roomId ∉ SocketIO.sockets (io st) →
        received m (emitted st (Packet sid (JoinRoom roomId) now)) = [])).
Proof.
  intros Hreach Hsid.
  pose proof (join_room_recipients st sid roomId) as Hrec.
  split.
  - unfold emitted. rewrite step_packet by done. simpl.
    rewrite received_cons. simpl. rewrite decide_True by done.
    unfold SocketIO.socket_to_emit.
    rewrite SocketIOFacts.received_broadcast, decide_False; [done|].
    rewrite Hrec by done. tauto.
  - intros Hne. rewrite received_join_room by done. split; [|split].
    + intros Hin Hout. rewrite decide_True; [done|]. apply Hrec; by auto.
    + intros Hin. rewrite decide_False; [done|]. rewrite Hrec by done. tauto.
    + intros Hout Hother. rewrite decide_False; [done|]. rewrite Hrec by done. tauto.
Qed.

Lemma join_room_notices_witness :
  received "C1" (emitted two_rooms (Packet "C1" (JoinRoom "xyz789") 0))
    = [RoomJoined "xyz789" "C1"]
  ∧ received "C2" (emitted two_rooms (Packet "C1" (JoinRoom "xyz789") 0))
    = [UserJoined "C1"].
Proof.
  assert (Hc1 : "C1" ∈ SocketIO.sockets (io two_rooms)) by (vm_compute; reflexivity).
  assert (Hc2 : "C2" ∈ members_of "xyz789" (rooms two_rooms)) by (vm_compute; reflexivity).
  assert (Hout : "C2" ∉ members_of "C1" (rooms two_rooms)) by (vm_compute; discriminate).
  assert (Hne : "C2" ≠ "C1") by discriminate.
  pose proof (join_room_notices two_rooms "C1" "xyz789" 0 "C2" two_rooms_reachable Hc1)
    as [Hself Hother].
  split; [exact Hself|].
  exact (proj1 (Hother Hne) (or_introl Hc2) Hout).
Defined.

(** X5.  A ['signal'] addressed to [b] is written to [b] when [b] is
    live and, besides, to every member of a directory room whose
    identifier is [b]; nobody else sees it.  So a connection that joins
    a room named after another connection's id receives the signals
    meant for that connection. *)
Theorem signal_recipients (st : State) (a b : string) (signal : json) (now : Z) (m : string) :
  reachable st →
  a ∈ SocketIO.sockets (io st) →
  (m ∈ members_of b (rooms st) ∨ (m = b ∧ b ∈ SocketIO.sockets (io st)) →
   received m (emitted st (Packet a (Signal b signal) now)) = [SignalFrom a signal])
  ∧ (m ∉ members_of b (rooms st) →
     m ≠ b ∨ b ∉ SocketIO.sockets (io st) →
     received m (emitted st (Packet a (Signal b signal) now)) = []).
Proof.
  intros Hreach Ha. unfold emitted. rewrite step_packet by done. simpl.
  unfold SocketIO.io_to_emit. rewrite SocketIOFacts.received_broadcast.
  pose proof (reachable_recipients st b ∅ m Hreach) as Hrec.
  split.
  - intros Hin. rewrite decide_True; [done|]. apply Hrec. split; [done|set_solver].
  - intros Hout Hother. rewrite decide_False; [done|]. rewrite Hrec. tauto.
Qed.

Lemma signal_recipients_witness :
  received "C2"
    (emitted
       (next two_rooms (Packet "C2" (JoinRoom "C1") 0))
       (Packet "C1" (Signal "C1" offer) 0))
  = [SignalFrom "C1" offer].
Proof.
  assert (Hreach : reachable (next two_rooms (Packet "C2" (JoinRoom "C1") 0)))
    by (apply reachable_next, two_rooms_reachable).
  assert (Hc1 : "C1" ∈ SocketIO.sockets (io (next two_rooms (Packet "C2" (JoinRoom "C1") 0))))
    by (vm_compute; reflexivity).
  assert (Hc2 : "C2" ∈ members_of "C1" (rooms (next two_rooms (Packet "C2" (JoinRoom "C1") 0))))
    by (vm_compute; reflexivity).
  exact (proj1 (signal_recipients _ "C1" "C1" offer 0 "C2" Hreach Hc1) (or_introl Hc2)).
Defined.

Lemma step_closed st sid :
  sid ∈ SocketIO.sockets (io st) →
  step st (Closed sid) = on_disconnect sid (with_io st (SocketIO.close sid (io st))).
Proof. intros Hsid. simpl. by rewrite decide_True. Qed.

(** Whom a ['user-left'] broadcast for one room reaches, once the
    closing socket has been cleaned up by Socket.IO: the room named by
    its id, which the broadcast excepts, then holds the directory's
    members of that room. *)
Lemma user_left_recipients st sid roomId m :
  reachable st →
  m ∈ SocketIO.recipients (SocketIO.close sid (io st)) roomId
        (SocketIO.room_sids (SocketIO.close sid (io st)) sid) ↔
  (m ∈ members_of roomId (rooms st)
   ∨ (m = roomId ∧ m ∈ SocketIO.sockets (io st)))
  ∧ m ≠ sid
  ∧ m ∉ members_of sid (rooms st).
Proof.
  intros Hreach. destruct (reachable_consistent st Hreach) as [Hrooms Hlive].
  rewrite SocketIOFacts.elem_of_recipients, !SocketIOFacts.room_sids_close. simpl.
  rewrite !elem_of_difference, !elem_of_singleton, !Hrooms. split.
  - intros ([[Hin|[-> Hin]] Hne] & _ & Hout); (split; [by auto|]); split; try done;
      intros Hm; apply Hout; by auto.
  - intros ([Hin|[-> Hin]] & Hne & Hout).
    + split; [by auto|]. split; [split; [by eapply Hlive|done]|].
      intros [[?|[? _]] _]; done.
    + split; [by auto|]. split; [done|]. intros [[?|[? _]] _]; done.
Qed.

Lemma fanout_count {A} (P : A → Prop) `{!∀ a, Decision (P a)} (msg : ServerMsg)
    (l : list A) :
  flat_map (λ a, if decide (P a) then [msg] else []) l
  = replicate (length (filter P l)) msg.
Proof.
  induction l as [|a l IH]; [done|]. simpl. rewrite filter_cons, IH.
  by destruct (decide (P a)).
Qed.

Lemma received_user_left_notices st sid m (entries : list (string * Room)) :
  reachable st →
  m ≠ sid →
  m ∉ members_of sid (rooms st) →
  (∀ entry, entry ∈ entries → rooms st !! entry.1 = Some entry.2) →
  received m
    (flat_map
       (λ entry : string * Room,
          if decide (sid ∈ users entry.2)
          then SocketIO.socket_to_emit (SocketIO.close sid (io st)) sid entry.1 (UserLeft sid)
          else [])
       entries)
  = replicate
      (length
         (filter
            (λ entry : string * Room,
               sid ∈ users entry.2
               ∧ (m ∈ users entry.2
                  ∨ (m = entry.1 ∧ m ∈ SocketIO.sockets (io st))))
            entries))
      (UserLeft sid).
Proof.
  intros Hreach Hne Hnot Hentries. rewrite received_flat_map, <- fanout_count.
  induction entries as [|entry entries IH]; [done|]. simpl.
  rewrite IH by (intros e He; apply Hentries; by right). f_equal.
  assert (Hentry : members_of entry.1 (rooms st) = users entry.2).
  { unfold members_of. rewrite (Hentries entry) by left. done. }
  destruct (decide (sid ∈ users entry.2)) as [Hsid|Hsid].
  - unfold SocketIO.socket_to_emit. rewrite SocketIOFacts.received_broadcast.
    pose proof (user_left_recipients st sid entry.1 m Hreach) as Hrec.
    rewrite Hentry in Hrec.
    destruct (decide (m ∈ SocketIO.recipients (SocketIO.close sid (io st)) entry.1
                        (SocketIO.room_sids (SocketIO.close sid (io st)) sid)))
      as [Hin|Hout].
    + rewrite decide_True; [done|]. apply Hrec in Hin. tauto.
    + rewrite decide_False; [done|]. intros [_ Hshare]. apply Hout, Hrec. by auto.
  - rewrite decide_False; [done|]. tauto.
Qed.

(** The notices of a close never go to a socket in the excepted room. *)
Lemma user_left_notices_excepted st sid m :
  reachable st →
  m = sid ∨ m ∈ members_of sid (rooms st) →
  received m (user_left_notices sid (with_io st (SocketIO.close sid (io st)))) = [].
Proof.
  intros Hreach Hexcepted. apply received_none. intros d Hd Heq. subst m.
  unfold user_left_notices in Hd. simpl in Hd.
  apply list_elem_of_In, in_flat_map in Hd as (entry & _ & Hd).
  apply list_elem_of_In in Hd. case_decide; [|by apply elem_of_nil in Hd].
  apply SocketIOFacts.elem_of_broadcast in Hd as [_ Hd].
  apply user_left_recipients in Hd; [|done]. tauto.
Qed.

(** X6.  What the loss of a connection sends: only ['user-left']
    packets naming the closed socket; none to the closed socket and none
    to the members of the room named after its identity; and to any
    other socket one per room of the closed socket that the socket
    shares (or that is named after the socket's own id): at least one
    for such a member of a room the closed socket was in. *)
Theorem disconnect_notices (st : State) (sid m : string) :
  reachable st →
  sid ∈ SocketIO.sockets (io st) →
  (∀ d, d ∈ emitted st (Closed sid) → d.2 = UserLeft sid)
  ∧ received sid (emitted st (Closed sid)) = []
  ∧ (m ∈ members_of sid (rooms st) → received m (emitted st (Closed sid)) = [])
  ∧ (m ≠ sid → m ∉ members_of sid (rooms st) →
     received m (emitted st (Closed sid))
       = replicate (rooms_shared sid m st) (UserLeft sid)
     ∧ ∀ roomId,
         sid ∈ members_of roomId (rooms st) →
         m ∈ members_of roomId (rooms st) →
         0 < rooms_shared sid m st).
Proof.
  intros Hreach Hsid. unfold emitted. rewrite step_closed by done.
  change (on_disconnect sid (with_io st (SocketIO.close sid (io st)))).2
    with (user_left_notices sid (with_io st (SocketIO.close sid (io st)))).
  split; [|split; [|split]].
  - unfold user_left_notices. simpl.
    intros d Hd. apply list_elem_of_In, in_flat_map in Hd as (entry & _ & Hd).
    apply list_elem_of_In in Hd. case_decide; [|by apply elem_of_nil in Hd].
    by apply SocketIOFacts.elem_of_broadcast in Hd as [Hd _].
  - apply user_left_notices_excepted; by auto.
  - intros Hin. apply user_left_notices_excepted; by auto.
  - intros Hne Hout. split.
    + unfold user_left_notices. simpl.
      apply received_user_left_notices; [done..|].
      intros [roomId room] Hin. by apply elem_of_map_to_list in Hin.
    + intros roomId Hsid_in Hm_in. unfold rooms_shared, members_of in Hsid_in, Hm_in |- *.
      destruct (rooms st !! roomId) as [room|] eqn:Hroom; [|set_solver].
      assert (Hin : (roomId, room) ∈
                filter
                  (λ entry : string * Room,
                     sid ∈ users entry.2
                     ∧ (m ∈ users entry.2
                        ∨ (m = entry.1 ∧ m ∈ SocketIO.sockets (io st))))
                  (map_to_list (rooms st))).
      { apply list_elem_of_filter. split; [by auto|]. by apply elem_of_map_to_list. }
      destruct (filter _ _); [by apply elem_of_nil in Hin|simpl; lia].
Qed.

Lemma disconnect_notices_witness :
  received "C1" (emitted lobby2 (Closed "C2")) = [UserLeft "C2"].
Proof.
  assert (Hc2 : "C2" ∈ SocketIO.sockets (io lobby2)) by (vm_compute; reflexivity).
  assert (Hne : "C1" ≠ "C2") by discriminate.
  assert (Hout : "C1" ∉ members_of "C2" (rooms lobby2)) by (vm_compute; discriminate).
  exact (proj1 (proj2 (proj2 (proj2 (disconnect_notices lobby2 "C2" "C1"
                                       lobby2_reachable Hc2)))
                  Hne Hout)).
Defined.

(** X7.  What the loss of a connection leaves behind: the socket is no
    longer live, it is a member of no room and in no Socket.IO room, and
    every room's member set is the one before without it; a packet that
    still arrives from it has no effect. *)
Theorem close_cleans_up (st : State) (sid : string) :
  reachable st →
  sid ∈ SocketIO.sockets (io st) →
  SocketIO.sockets (io (next st (Closed sid))) = SocketIO.sockets (io st) ∖ {[sid]}
  ∧ (∀ roomId,
       members_of roomId (rooms (next st (Closed sid)))
         = members_of roomId (rooms st) ∖ {[sid]}
       ∧ (sid ∉ members_of roomId (rooms (next st (Closed sid))))
       ∧ (sid ∉ SocketIO.room_sids (io (next st (Closed sid))) roomId))
  ∧ (∀ msg now,
       step (next st (Closed sid)) (Packet sid msg now) = (next st (Closed sid), [])).
Proof.
  intros Hreach Hsid. unfold next. rewrite step_closed by done. simpl.
  split; [done|]. split.
  - intros roomId. rewrite members_of_disconnect, SocketIOFacts.room_sids_close.
    set_solver.
  - intros msg now. rewrite decide_False; [done|]. set_solver.
Qed.

Lemma close_cleans_up_witness :
  members_of "abc123" (rooms (next lobby2 (Closed "C2")))
  = members_of "abc123" (rooms lobby2) ∖ {["C2"]}.
Proof.
  assert (Hc2 : "C2" ∈ SocketIO.sockets (io lobby2)) by (vm_compute; reflexivity).
  exact (proj1 (proj1 (proj2 (close_cleans_up lobby2 "C2" lobby2_reachable Hc2)) "abc123")).
Defined.

(** X8.  Relayed traffic that carries the fields its listener takes
    apart never changes the state: over packets of the shapes of
    [ClientMsg], the state after a sequence of events is the state after
    its connections, closes and ['join-room'] packets alone.  (A
    ['signal'] or ['layer-update'] packet without an object as payload
    is not of these shapes; its listener throws.) *)
Theorem relays_keep_state (st : State) (evs : list Event) :
  (run st evs).1 = (run st (filter (λ ev, changes_membership ev = true) evs)).1.
Proof.
  revert st. induction evs as [|ev evs IH]; intros st; [done|].
  rewrite filter_cons.
  destruct (decide (changes_membership ev = true)) as [Hkeep|Hdrop].
  - rewrite !run_cons. simpl. apply IH.
  - rewrite run_cons. simpl. rewrite <- IH. f_equal.
    destruct ev as [sid|sid msg now|sid]; try done.
    unfold next. simpl.
    destruct (decide (sid ∈ SocketIO.sockets (io st))); [|done].
    by destruct msg.
Qed.


(** ** More on the directory: how the two handlers compose *)

Lemma leave_room_absent sid room :
  sid ∉ users room → leave_room sid room = Some room.
Proof. intros Hout. unfold leave_room. by rewrite decide_False. Qed.

Lemma leave_room_add_user sid room :
  sid ∉ users room →
  leave_room sid (add_user sid room)
  = if decide (users room = ∅) then None else Some room.
Proof.
  intros Hout. unfold leave_room, add_user. cbn [users id].
  rewrite decide_True by set_solver.
  assert (Hsame : ({[sid]} ∪ users room) ∖ {[sid]} = users room) by set_solver.
  rewrite Hsame.
  destruct (decide (users room = ∅)) as [Hempty|Hnonempty].
  - rewrite decide_True; [done|]. by rewrite Hempty, size_empty.
  - rewrite decide_False; [by destruct room|].
    intros Hsize. by apply size_empty_iff, leibniz_equiv in Hsize.
Qed.

(** A join followed by the loss of the connection undoes the join when
    the connection was in no room before. *)
Lemma join_then_disconnect_dir sid roomId (rooms : Directory) :
  no_empty_room rooms →
  (∀ roomId', sid ∉ members_of roomId' rooms) →
  disconnect_dir sid (join_room_dir sid roomId rooms) = rooms.
Proof.
  intros Hnonempty Hout. apply map_eq. intros roomId'.
  rewrite lookup_disconnect_dir. unfold join_room_dir.
  specialize (Hout roomId'). unfold members_of in Hout.
  destruct (decide (roomId' = roomId)) as [->|Hne].
  - rewrite lookup_alter_eq.
    destruct (rooms !! roomId) as [room|] eqn:Hroom.
    + rewrite decide_True by (by eexists). rewrite Hroom.
      cbn [fmap option_fmap option_map mbind option_bind].
      rewrite leave_room_add_user by done.
      rewrite decide_False; [done|]. by apply (Hnonempty roomId room).
    + rewrite decide_False by (by intros [? ?]). rewrite lookup_insert_eq.
      cbn [fmap option_fmap option_map mbind option_bind].
      rewrite leave_room_add_user by done. by rewrite decide_True.
  - rewrite lookup_alter_ne by done.
    assert (Hsame : (if decide (is_Some (rooms !! roomId)) then rooms
                     else <[roomId:={| id := roomId; users := ∅ |}]> rooms) !! roomId'
                    = rooms !! roomId').
    { destruct (decide (is_Some (rooms !! roomId))); [done|]. by rewrite lookup_insert_ne. }
    rewrite Hsame. destruct (rooms !! roomId') as [room|]; [|done]. simpl.
    by apply leave_room_absent.
Qed.

(** X9.  A connection that connects, joins a room and is lost leaves no
    trace: the directory, the live sockets and every Socket.IO room are
    as they were before it connected. *)
Theorem connect_join_drop_leaves_no_trace (st : State) (sid roomId : string) (now : Z) :
  reachable st →
  sid ∉ SocketIO.sockets (io st) →
  rooms (run st [Connection sid; Packet sid (JoinRoom roomId) now; Closed sid]).1
    = rooms st
  ∧ SocketIO.sockets
      (io (run st [Connection sid; Packet sid (JoinRoom roomId) now; Closed sid]).1)
    = SocketIO.sockets (io st)
  ∧ ∀ roomId',
      SocketIO.room_sids
        (io (run st [Connection sid; Packet sid (JoinRoom roomId) now; Closed sid]).1)
        roomId'
      = SocketIO.room_sids (io st) roomId'.
Proof.
  intros Hreach Hfresh.
  destruct (reachable_consistent st Hreach) as [Hrooms Hlive].
  assert (Hout : ∀ roomId', sid ∉ members_of roomId' (rooms st)).
  { intros roomId' Hin. by apply Hfresh, (Hlive roomId'). }
  assert (Hsids : ∀ roomId', sid ∉ SocketIO.room_sids (io st) roomId').
  { intros roomId'. rewrite Hrooms. intros [Hin|[-> Hin]]; [by eapply Hout|done]. }
  simpl. rewrite (decide_False (P := sid ∈ SocketIO.sockets (io st))) by done. simpl.
  rewrite decide_True by set_solver. simpl.
  rewrite decide_True by set_solver. simpl.
  split; [|split].
  - apply join_then_disconnect_dir; [|done].
    intros r room. by apply reachable_no_empty_room.
  - set_solver.
  - intros roomId'.
    rewrite SocketIOFacts.room_sids_close, SocketIOFacts.room_sids_join.
    rewrite !SocketIOFacts.room_sids_connect.
    pose proof (Hsids roomId'). pose proof (Hsids sid). pose proof (Hsids roomId).
    repeat case_decide; subst; set_solver.
Qed.

Lemma connect_join_drop_leaves_no_trace_witness :
  rooms (run lobby2 [Connection "C3"; Packet "C3" (JoinRoom "abc123") 0; Closed "C3"]).1
  = rooms lobby2.
Proof.
  assert (Hc3 : "C3" ∉ SocketIO.sockets (io lobby2)) by (vm_compute; discriminate).
  exact (proj1 (connect_join_drop_leaves_no_trace lobby2 "C3" "abc123" 0
                  lobby2_reachable Hc3)).
Defined.

(** X10.  The removal done by the ['disconnect'] handler is idempotent:
    running it a second time for the same socket changes nothing. *)
Theorem disconnect_dir_idempotent (rooms : Directory) (sid : string) :
  disconnect_dir sid (disconnect_dir sid rooms) = disconnect_dir sid rooms.
Proof.
  apply map_eq. intros roomId. rewrite !lookup_disconnect_dir.
  destruct (rooms !! roomId) as [room|]; [|done]. simpl.
  destruct (leave_room sid room) as [room'|] eqn:Hleave; [|done]. simpl.
  apply leave_room_absent.
  apply leave_room_Some in Hleave as [[-> _]|[-> Hout]]; [set_solver|done].
Qed.

Lemma dir_run_app evs1 evs2 :
  dir_run (evs1 ++ evs2) = foldl dir_step (dir_run evs1) evs2.
Proof. unfold dir_run. by rewrite foldl_app. Qed.

(** X11.  Rooms are independent: the member set of a room after a
    sequence of handler calls is the one after the joins of that room
    and the disconnects alone; joins of other rooms do not matter. *)
Theorem members_depend_on_own_room (evs : list DirEvent) (roomId : string) :
  members_of roomId (dir_run evs)
  = members_of roomId (dir_run (filter (concerns roomId) evs)).
Proof.
  induction evs as [|ev evs IH] using rev_ind; [done|].
  rewrite filter_app, filter_cons, filter_nil.
  destruct (decide (concerns roomId ev)) as [Hyes|Hno].
  - rewrite !dir_run_snoc, !members_of_dir_step.
    destruct ev as [sid roomId'|sid]; rewrite IH; done.
  - rewrite app_nil_r, dir_run_snoc, members_of_dir_step.
    destruct ev as [sid roomId'|sid]; [|done]. simpl in Hno.
    by rewrite decide_False.
Qed.


(** ** The client's table of peer connections *)


Lemma table_ok_lt c peerId n :
  table_ok c → peersRef c !! peerId = Some n → n < length (peers c).
Proof.
  intros [Hlive _] Hn. destruct (Hlive peerId n Hn) as (p & Hp & _).
  by apply lookup_lt_Some in Hp.
Qed.

Lemma table_ok_create peerId init c :
  table_ok c → table_ok (createPeerConnection peerId init c).1.
Proof.
  intros Hok. pose proof Hok as [Hlive Hinj]. split; simpl.
  - intros peerId' n. destruct (decide (peerId' = peerId)) as [->|Hne].
    + rewrite lookup_insert_eq. intros [= <-]. eexists.
      split; [by apply list_lookup_middle|done].
    + rewrite lookup_insert_ne by done. intros Hn.
      destruct (Hlive peerId' n Hn) as (p & Hp & Hd). exists p. split; [|done].
      by apply lookup_app_l_Some.
  - intros peerId1 peerId2 n.
    destruct (decide (peerId1 = peerId)) as [->|Hne1];
      destruct (decide (peerId2 = peerId)) as [->|Hne2]; try done.
    + rewrite lookup_insert_eq, lookup_insert_ne by done. intros [= <-] Hn.
      apply (table_ok_lt c peerId2 _ Hok) in Hn. lia.
    + rewrite lookup_insert_eq, lookup_insert_ne by done. intros Hn [= <-].
      apply (table_ok_lt c peerId1 _ Hok) in Hn. lia.
    + rewrite !lookup_insert_ne by done. apply Hinj.
Qed.

Lemma table_ok_feed signal n c :
  table_ok c →
  table_ok {| peers := alter (feed signal) n (peers c); peersRef := peersRef c |}.
Proof.
  intros [Hlive Hinj]. split; simpl; [|done].
  intros peerId n' Hn'. destruct (Hlive peerId n' Hn') as (p & Hp & Hd).
  destruct (decide (n' = n)) as [->|Hne].
  - exists (feed signal p). split; [|done].
    by rewrite list_lookup_alter_eq, Hp.
  - exists p. split; [|done]. by rewrite list_lookup_alter_ne.
Qed.

Lemma table_ok_recv c msg : table_ok c → table_ok (client_recv c msg).
Proof.
  intros Hok. destruct msg as [| userId | userId | from signal | | |]; simpl; try done.
  - by apply table_ok_create.
  - unfold on_user_left. destruct (peersRef c !! userId) as [n|] eqn:Hn; [|done].
    destruct Hok as [Hlive Hinj]. split; simpl.
    + intros peerId n'. destruct (decide (peerId = userId)) as [->|Hne].
      * by rewrite lookup_delete_eq.
      * rewrite lookup_delete_ne by done. intros Hn'.
        destruct (Hlive peerId n' Hn') as (p & Hp & Hd). exists p. split; [|done].
        rewrite list_lookup_alter_ne; [done|]. intros Heq. subst n'.
        by apply Hne, (Hinj _ _ n).
    + intros peerId1 peerId2 n'.
      destruct (decide (peerId1 = userId)) as [->|Hne1]; [by rewrite lookup_delete_eq|].
      destruct (decide (peerId2 = userId)) as [->|Hne2]; [by rewrite lookup_delete_eq|].
      rewrite !lookup_delete_ne by done. apply Hinj.
  - unfold on_signal_from. destruct (peersRef c !! from) as [n|] eqn:Hn.
    + by apply table_ok_feed.
    + apply (table_ok_feed signal (length (peers c)) (createPeerConnection from false c).1).
      by apply table_ok_create.
Qed.

Lemma client_run_snoc c msgs msg :
  client_run c (msgs ++ [msg]) = client_recv (client_run c msgs) msg.
Proof. unfold client_run. by rewrite foldl_app. Qed.

Lemma table_refs_ok_lt evs c peerId n :
  table_refs_ok evs c → peersRef c !! peerId = Some n → n < length (peers c).
Proof.
  intros [Hlive _] Hn. destruct (Hlive peerId n Hn) as (p & Hp & _).
  by apply lookup_lt_Some in Hp.
Qed.

Lemma table_refs_ok_mono evs ev c :
  table_refs_ok evs c → table_refs_ok (evs ++ [ev]) c.
Proof.
  intros [Hlive Hinj]. split; [|done]. intros peerId n Hn.
  destruct (Hlive peerId n Hn) as (p & Hp & Hd). exists p. split; [done|].
  intros Hdestroyed. apply elem_of_app. left. by apply Hd.
Qed.

Lemma table_refs_ok_create evs peerId init c :
  table_refs_ok evs c → table_refs_ok evs (createPeerConnection peerId init c).1.
Proof.
  intros Hok. pose proof Hok as [Hlive Hinj]. split; simpl.
  - intros peerId' n. destruct (decide (peerId' = peerId)) as [->|Hne].
    + rewrite lookup_insert_eq. intros [= <-]. eexists.
      split; [by apply list_lookup_middle|done].
    + rewrite lookup_insert_ne by done. intros Hn.
      destruct (Hlive peerId' n Hn) as (p & Hp & Hd). exists p. split; [|done].
      by apply lookup_app_l_Some.
  - intros peerId1 peerId2 n.
    destruct (decide (peerId1 = peerId)) as [->|Hne1];
      destruct (decide (peerId2 = peerId)) as [->|Hne2]; try done.
    + rewrite lookup_insert_eq, lookup_insert_ne by done. intros [= <-] Hn.
      apply (table_refs_ok_lt evs c peerId2 _ Hok) in Hn. lia.
    + rewrite lookup_insert_eq, lookup_insert_ne by done. intros Hn [= <-].
      apply (table_refs_ok_lt evs c peerId1 _ Hok) in Hn. lia.
    + rewrite !lookup_insert_ne by done. apply Hinj.
Qed.

Lemma table_refs_ok_feed evs signal n c :
  table_refs_ok evs c →
  table_refs_ok evs {| peers := alter (feed signal) n (peers c); peersRef := peersRef c |}.
Proof.
  intros [Hlive Hinj]. split; simpl; [|done].
  intros peerId n' Hn'. destruct (Hlive peerId n' Hn') as (p & Hp & Hd).
  destruct (decide (n' = n)) as [->|Hne].
  - exists (feed signal p). split; [|done].
    by rewrite list_lookup_alter_eq, Hp.
  - exists p. split; [|done]. by rewrite list_lookup_alter_ne.
Qed.

Lemma table_refs_ok_signal evs from signal c :
  table_refs_ok evs c → table_refs_ok evs (on_signal_from from signal c).
Proof.
  intros Hok. unfold on_signal_from. destruct (peersRef c !! from) as [n|] eqn:Hn.
  - by apply table_refs_ok_feed.
  - apply (table_refs_ok_feed evs signal (length (peers c))
             (createPeerConnection from false c).1).
    by apply table_refs_ok_create.
Qed.

Lemma table_refs_ok_step evs ev c :
  table_refs_ok evs c → table_refs_ok (evs ++ [ev]) (client_step c ev).
Proof.
  intros Hok. destruct ev as [msg|n].
  - apply table_refs_ok_mono with (ev := Arrives msg) in Hok.
    destruct msg as [| userId | userId | from signal | | |]; simpl; try done.
    + by apply table_refs_ok_create.
    + unfold on_user_left. destruct (peersRef c !! userId) as [n|] eqn:Hn; [|done].
      destruct Hok as [Hlive Hinj]. split; simpl.
      * intros peerId n'. destruct (decide (peerId = userId)) as [->|Hne].
        -- by rewrite lookup_delete_eq.
        -- rewrite lookup_delete_ne by done. intros Hn'.
           destruct (Hlive peerId n' Hn') as (p & Hp & Hd). exists p. split; [|done].
           rewrite list_lookup_alter_ne; [done|]. intros Heq. subst n'.
           by apply Hne, (Hinj _ _ n).
      * intros peerId1 peerId2 n'.
        destruct (decide (peerId1 = userId)) as [->|Hne1]; [by rewrite lookup_delete_eq|].
        destruct (decide (peerId2 = userId)) as [->|Hne2]; [by rewrite lookup_delete_eq|].
        rewrite !lookup_delete_ne by done. apply Hinj.
    + destruct (stored_peer from c) as [p|]; [destruct (destroyed p); [done|]|];
        by apply table_refs_ok_signal.
  - destruct Hok as [Hlive Hinj]. split; simpl; [|done].
    intros peerId n' Hn'. destruct (Hlive peerId n' Hn') as (p & Hp & Hd).
    destruct (decide (n' = n)) as [->|Hne].
    + exists (destroy p). split; [by rewrite list_lookup_alter_eq, Hp|].
      intros _. apply elem_of_app. right. left.
    + exists p. split; [by rewrite list_lookup_alter_ne|].
      intros Hdestroyed. apply elem_of_app. left. by apply Hd.
Qed.

(** X12.  Whatever sequence of packets and of failing peers the
    component goes through, its table only refers to peer instances
    that were constructed, never to one instance under two keys, and to
    a destroyed instance only if that instance failed by itself: the
    component takes out of the table every instance on which it calls
    [destroy()]. *)
Theorem peer_table_sound (evs : list ClientEvent) :
  table_refs_ok evs (client_events new_client evs).
Proof.
  induction evs as [|ev evs IH] using rev_ind.
  - split; intros *; simpl; by rewrite lookup_empty.
  - unfold client_events. rewrite foldl_app. simpl. by apply table_refs_ok_step.
Qed.





(** ** Server and client together *)

Lemma on_user_left_twice userId c :
  on_user_left userId (on_user_left userId c) = on_user_left userId c.
Proof.
  unfold on_user_left at 2 3. destruct (peersRef c !! userId) as [n|] eqn:Hn.
  - unfold on_user_left. simpl. by rewrite lookup_delete_eq.
  - unfold on_user_left. by rewrite Hn.
Qed.

Lemma client_run_user_left userId c k :
  client_run c (replicate (S k) (UserLeft userId)) = on_user_left userId c.
Proof.
  induction k as [|k IH]; [done|].
  rewrite replicate_S_end, client_run_snoc, IH. simpl. apply on_user_left_twice.
Qed.

Lemma peersRef_on_user_left userId c :
  peersRef (on_user_left userId c) !! userId = None.
Proof.
  unfold on_user_left. destruct (peersRef c !! userId) as [n|] eqn:Hn; [|done].
  simpl. by rewrite lookup_delete_eq.
Qed.

(** X15.  When a connection is lost, the client of every member of a
    room it was in that is not a member of the room named after the lost
    connection's identity ends up as after one ['user-left'] for it,
    however many rooms the two shared: the entry for the lost connection
    is gone from its table. *)
Theorem lost_connection_leaves_tables (st : State) (sid m roomId : string)
    (c : RoomClient) :
  reachable st →
  sid ∈ SocketIO.sockets (io st) →
  m ≠ sid →
  m ∉ members_of sid (rooms st) →
  sid ∈ members_of roomId (rooms st) →
  m ∈ members_of roomId (rooms st) →
  client_run c (received m (emitted st (Closed sid))) = on_user_left sid c
  ∧ peersRef (client_run c (received m (emitted st (Closed sid)))) !! sid = None.
Proof.
  intros Hreach Hsid Hne Hout Hsid_in Hm_in.
  assert (Hrecv : ∃ k, received m (emitted st (Closed sid))
                       = replicate (S k) (UserLeft sid)).
  { unfold emitted. rewrite step_closed by done. simpl. unfold user_left_notices. simpl.
    rewrite (received_user_left_notices st sid m (map_to_list (rooms st)) Hreach Hne Hout);
      [|intros [r room] Hin; by apply elem_of_map_to_list in Hin].
    unfold members_of in Hsid_in, Hm_in.
    destruct (rooms st !! roomId) as [room|] eqn:Hroom; [|set_solver].
    assert (Hin : (roomId, room) ∈
              filter
                (λ entry : string * Room,
                   sid ∈ users entry.2
                   ∧ (m ∈ users entry.2
                      ∨ (m = entry.1 ∧ m ∈ SocketIO.sockets (io st))))
                (map_to_list (rooms st))).
    { apply list_elem_of_filter. split; [by auto|]. by apply elem_of_map_to_list. }
    destruct (filter _ _) as [|entry entries]; [by apply elem_of_nil in Hin|].
    by exists (length entries). }
  destruct Hrecv as [k ->]. rewrite client_run_user_left.
  split; [done|]. apply peersRef_on_user_left.
Qed.

Lemma lost_connection_leaves_tables_witness :
  peersRef
    (client_run (on_user_joined "C2" new_client) (received "C1" (emitted lobby2 (Closed "C2"))))
    !! "C2"
  = None.
Proof.
  assert (Hc2 : "C2" ∈ SocketIO.sockets (io lobby2)) by (vm_compute; reflexivity).
  assert (Hne : "C1" ≠ "C2") by discriminate.
  assert (Hout : "C1" ∉ members_of "C2" (rooms lobby2)) by (vm_compute; discriminate).
  assert (Hin2 : "C2" ∈ members_of "abc123" (rooms lobby2)) by (vm_compute; reflexivity).
  assert (Hin1 : "C1" ∈ members_of "abc123" (rooms lobby2)) by (vm_compute; reflexivity).
  exact (proj2 (lost_connection_leaves_tables lobby2 "C2" "C1" "abc123"
                  (on_user_joined "C2" new_client) lobby2_reachable Hc2 Hne Hout
                  Hin2 Hin1)).
Defined.

(** X16.  When a connection joins a room, also for a second time, the
    client of every other member of the room that is not a member of the
    room named after the joiner's identity constructs an initiating peer
    for it and stores it under the joiner's identity. *)
Theorem join_makes_members_initiate (st : State) (sid m roomId : string) (now : Z)
    (c : RoomClient) :
  reachable st →
  sid ∈ SocketIO.sockets (io st) →
  m ≠ sid →
  m ∉ members_of sid (rooms st) →
  m ∈ members_of roomId (rooms st) →
  client_run c (received m (emitted st (Packet sid (JoinRoom roomId) now)))
    = on_user_joined sid c
  ∧ peersRef (client_run c (received m (emitted st (Packet sid (JoinRoom roomId) now))))
      !! sid
    = Some (length (peers c))
  ∧ peers (client_run c (received m (emitted st (Packet sid (JoinRoom roomId) now))))
      !! length (peers c)
    = Some {| initiator := true; destroyed := false; signalled := [] |}.
Proof.
  intros Hreach Hsid Hne Hout Hm.
  assert (Hrecv : received m (emitted st (Packet sid (JoinRoom roomId) now))
                  = [UserJoined sid]).
  { rewrite received_join_room by done. rewrite decide_True; [done|].
    apply join_room_recipients; by auto. }
  rewrite Hrecv. unfold client_run, on_user_joined. simpl.
  split; [done|]. split; [by rewrite lookup_insert_eq|]. by apply list_lookup_middle.
Qed.

Lemma join_makes_members_initiate_witness :
  peersRef
    (client_run new_client
       (received "C1" (emitted lobby2 (Packet "C2" (JoinRoom "abc123") 0))))
    !! "C2"
  = Some (length (peers new_client)).
Proof.
  assert (Hc2 : "C2" ∈ SocketIO.sockets (io lobby2)) by (vm_compute; reflexivity).
  assert (Hne : "C1" ≠ "C2") by discriminate.
  assert (Hout : "C1" ∉ members_of "C2" (rooms lobby2)) by (vm_compute; discriminate).
  assert (Hin1 : "C1" ∈ members_of "abc123" (rooms lobby2)) by (vm_compute; reflexivity).
  exact (proj1 (proj2 (join_makes_members_initiate lobby2 "C2" "C1" "abc123" 0 new_client
                         lobby2_reachable Hc2 Hne Hout Hin1))).
Defined.

(** ** The editor's list of layers *)

Module EditorFacts.
Import Editor.

Section facts.
Context {number image : Type}.
Implicit Types (layers : list (Layer number image)) (layer : Layer number image).

Lemma array_get_fmap layers (n : nat) :
  array_get (Some <$> layers) (Z.of_nat n) = layers !! n.
Proof.
  unfold array_get. rewrite decide_True by lia.
  rewrite Nat2Z.id, list_lookup_fmap. by destruct (layers !! n).
Qed.

Lemma array_set_in_range (a : list (option (Layer number image))) (n : nat) v :
  n < length a → array_set (Z.of_nat n) v a = <[n := v]> a.
Proof.
  intros Hlt. unfold array_set. rewrite decide_False by lia.
  by rewrite Nat2Z.id, decide_True.
Qed.

Lemma findIndex_found layerId layers i layer :
  list_find (λ l, id l = layerId) layers = Some (i, layer) →
  findIndex layerId layers = Z.of_nat i.
Proof. unfold findIndex. by intros ->. Qed.

Lemma findIndex_missing layerId layers :
  Forall (λ l, id l ≠ layerId) layers → findIndex layerId layers = (-1)%Z.
Proof.
  intros Hnone. unfold findIndex.
  by rewrite (proj2 (list_find_None (λ l, id l = layerId) layers) Hnone).
Qed.

(** With distinct ids, a layer is found where it is. *)
Lemma list_find_unique layerId layers i layer :
  NoDup (id <$> layers) →
  layers !! i = Some layer →
  id layer = layerId →
  list_find (λ l, id l = layerId) layers = Some (i, layer).
Proof.
  intros Hnodup Hi Hid. apply list_find_Some. split; [done|]. split; [done|].
  intros j other Hj Hlt Hother.
  assert (Heq : j = i); [|lia].
  apply (NoDup_lookup (id <$> layers) j i layerId Hnodup).
  - by rewrite list_lookup_fmap, Hj, <- Hother.
  - by rewrite list_lookup_fmap, Hi, <- Hid.
Qed.

Lemma moveLayerUp_found layerId layers i lower upper :
  list_find (λ l, id l = layerId) layers = Some (i, lower) →
  layers !! S i = Some upper →
  moveLayerUp layerId layers
  = Some (Some <$> <[S i := lower]> (<[i := upper]> layers)).
Proof.
  intros Hfind Hupper. pose proof Hfind as (Hlower & _ & _)%list_find_Some.
  pose proof (lookup_lt_Some _ _ _ Hupper) as Hlen.
  unfold moveLayerUp. rewrite (findIndex_found _ _ _ _ Hfind).
  rewrite decide_True by lia.
  replace (Z.of_nat i + 1)%Z with (Z.of_nat (S i)) by lia.
  rewrite !array_get_fmap, Hupper, Hlower.
  rewrite (array_set_in_range _ i) by (rewrite length_fmap; lia).
  rewrite array_set_in_range by (rewrite length_insert, length_fmap; lia).
  by rewrite !list_fmap_insert.
Qed.

Lemma moveLayerDown_found layerId layers i lower upper :
  list_find (λ l, id l = layerId) layers = Some (S i, upper) →
  layers !! i = Some lower →
  moveLayerDown layerId layers
  = Some (Some <$> <[i := upper]> (<[S i := lower]> layers)).
Proof.
  intros Hfind Hlower. pose proof Hfind as (Hupper & _ & _)%list_find_Some.
  pose proof (lookup_lt_Some _ _ _ Hupper) as Hlen.
  unfold moveLayerDown. rewrite (findIndex_found _ _ _ _ Hfind).
  rewrite decide_True by lia.
  replace (Z.of_nat (S i) - 1)%Z with (Z.of_nat i) by lia.
  rewrite !array_get_fmap, Hupper, Hlower.
  rewrite (array_set_in_range _ (S i)) by (rewrite length_fmap; lia).
  rewrite array_set_in_range by (rewrite length_insert, length_fmap; lia).
  by rewrite !list_fmap_insert.
Qed.

Lemma swap_adjacent_Permutation layers i lower upper :
  layers !! i = Some lower →
  layers !! S i = Some upper →
  <[S i := lower]> (<[i := upper]> layers) ≡ₚ layers.
Proof.
  revert layers. induction i as [|i IH]; intros layers Hlower Hupper.
  - destruct layers as [|l0 [|l1 rest]]; simplify_eq/=. apply perm_swap.
  - destruct layers as [|l0 rest]; simplify_eq/=. f_equiv. by apply IH.
Qed.

Lemma swap_adjacent_back layers i lower upper :
  layers !! i = Some lower →
  layers !! S i = Some upper →
  <[i := lower]> (<[S i := upper]> (<[S i := lower]> (<[i := upper]> layers))) = layers.
Proof.
  intros Hlower Hupper. rewrite list_insert_insert_eq.
  rewrite list_insert_insert_ne by lia. rewrite list_insert_insert_eq.
  rewrite (list_insert_id _ i) by done. by apply list_insert_id.
Qed.

(** X17.  [updateLayer] never adds, drops or reorders layers: the new
    list has the old length, a layer with another id stays as it is
    where it is, and, when the update does not set [id], the ids stay
    as they are. *)
Theorem updateLayer_keeps_others layerId updates layers :
  length (updateLayer layerId updates layers) = length layers
  ∧ (∀ i layer, layers !! i = Some layer → id layer ≠ layerId →
       updateLayer layerId updates layers !! i = Some layer)
  ∧ (∀ i layer, layers !! i = Some layer → id layer = layerId →
       updateLayer layerId updates layers !! i = Some (spread layer updates))
  ∧ (set_id updates = None →
     id <$> updateLayer layerId updates layers = id <$> layers).
Proof.
  unfold updateLayer. split; [by rewrite length_fmap|]. split; [|split].
  - intros i layer Hi Hne. rewrite list_lookup_fmap, Hi. simpl.
    by rewrite decide_False.
  - intros i layer Hi Heq. rewrite list_lookup_fmap, Hi. simpl.
    by rewrite decide_True.
  - intros Hid. rewrite <- list_fmap_compose. apply list_fmap_ext.
    intros i layer _. simpl. case_decide; [|done].
    unfold spread. simpl. by rewrite Hid.
Qed.

(** X18.  [moveLayerUp] of a layer that is not the last one exchanges
    it with the layer after it: the new list is a rearrangement of the
    old one, with these two layers in each other's place and all others
    where they were. *)
Theorem moveLayerUp_swaps layerId layers i lower upper :
  list_find (λ l, id l = layerId) layers = Some (i, lower) →
  layers !! S i = Some upper →
  ∃ layers',
    moveLayerUp layerId layers = Some (Some <$> layers')
    ∧ layers' ≡ₚ layers
    ∧ layers' !! i = Some upper
    ∧ layers' !! S i = Some lower
    ∧ ∀ j, j ≠ i → j ≠ S i → layers' !! j = layers !! j.
Proof.
  intros Hfind Hupper. pose proof Hfind as (Hlower & _ & _)%list_find_Some.
  pose proof (lookup_lt_Some _ _ _ Hupper) as Hlen.
  exists (<[S i := lower]> (<[i := upper]> layers)).
  split; [by apply moveLayerUp_found|].
  split; [by apply swap_adjacent_Permutation|]. split; [|split].
  - rewrite list_lookup_insert_ne by lia. apply list_lookup_insert_eq. lia.
  - apply list_lookup_insert_eq. rewrite length_insert. lia.
  - intros j Hi HSi. by rewrite !list_lookup_insert_ne.
Qed.

(** X19.  With distinct ids, [moveLayerDown] undoes [moveLayerUp]:
    moving a layer up and then down again gives the list one started
    from. *)
Theorem moveLayerUp_then_Down layerId layers i lower upper :
  NoDup (id <$> layers) →
  layers !! i = Some lower →
  id lower = layerId →
  layers !! S i = Some upper →
  ∃ layers',
    moveLayerUp layerId layers = Some (Some <$> layers')
    ∧ moveLayerDown layerId layers' = Some (Some <$> layers).
Proof.
  intros Hnodup Hlower Hid Hupper.
  pose proof (lookup_lt_Some _ _ _ Hupper) as Hlen.
  pose proof (list_find_unique layerId layers i lower Hnodup Hlower Hid) as Hfind.
  exists (<[S i := lower]> (<[i := upper]> layers)).
  split; [by apply moveLayerUp_found|].
  assert (Hperm : <[S i := lower]> (<[i := upper]> layers) ≡ₚ layers)
    by (by apply swap_adjacent_Permutation).
  assert (Hnodup' : NoDup (id <$> <[S i := lower]> (<[i := upper]> layers)))
    by (by rewrite Hperm).
  rewrite (moveLayerDown_found layerId _ i upper lower).
  - by rewrite swap_adjacent_back.
  - apply list_find_unique; [done| |done].
    apply list_lookup_insert_eq. rewrite length_insert. lia.
  - rewrite list_lookup_insert_ne by lia. apply list_lookup_insert_eq. lia.
Qed.

(** X20.  The moves at the ends and for an id that no layer has:
    [moveLayerUp] of the last layer and [moveLayerDown] of the first
    layer or of an unknown id do nothing; [moveLayerUp] of an unknown
    id in a list that is not empty stores and sends a list whose first
    element is [undefined], the first layer being lost. *)
Theorem move_edge_cases layerId layers :
  (∀ i layer, list_find (λ l, id l = layerId) layers = Some (i, layer) →
     S i = length layers → moveLayerUp layerId layers = None)
  ∧ (∀ layer, list_find (λ l, id l = layerId) layers = Some (0, layer) →
       moveLayerDown layerId layers = None)
  ∧ (Forall (λ l, id l ≠ layerId) layers →
     moveLayerDown layerId layers = None
     ∧ ∀ first rest, layers = first :: rest →
         moveLayerUp layerId layers = Some (None :: (Some <$> rest))).
Proof.
  split; [|split].
  - intros i layer Hfind Hlast. unfold moveLayerUp.
    rewrite (findIndex_found _ _ _ _ Hfind). by rewrite decide_False by lia.
  - intros layer Hfind. unfold moveLayerDown.
    rewrite (findIndex_found _ _ _ _ Hfind). by rewrite decide_False by lia.
  - intros Hnone. split.
    + unfold moveLayerDown. rewrite findIndex_missing by done.
      by rewrite decide_False by lia.
    + intros first rest ->. unfold moveLayerUp. rewrite findIndex_missing by done.
      rewrite decide_True by (simpl; lia). reflexivity.
Qed.

Lemma elem_of_filter_ids layerId layers s :
  s ∈ id <$> layers → s ≠ layerId →
  s ∈ id <$> filter (λ l, id l ≠ layerId) layers.
Proof.
  intros (layer & -> & Hin)%list_elem_of_fmap Hne.
  apply list_elem_of_fmap. exists layer. split; [done|].
  by apply list_elem_of_filter.
Qed.

(** X21.  [deleteLayer] removes every layer with the given id and
    keeps the others in their order.  When layers remain, a selection
    that pointed to a layer before points to a layer afterwards; when
    the only layers are deleted while selected, the selection is left
    pointing to the deleted id. *)
Theorem deleteLayer_selection layerId (st : EditorState number image) :
  layers (deleteLayer layerId st) = filter (λ l, id l ≠ layerId) (layers st)
  ∧ (layerId ∉ id <$> layers (deleteLayer layerId st))
  ∧ (layers (deleteLayer layerId st) ≠ [] →
     ∀ s, selectedLayerId st = Some s → s ∈ id <$> layers st →
          ∃ s', selectedLayerId (deleteLayer layerId st) = Some s'
                ∧ s' ∈ id <$> layers (deleteLayer layerId st))
  ∧ (layers (deleteLayer layerId st) = [] →
     selectedLayerId (deleteLayer layerId st) = selectedLayerId st).
Proof.
  unfold deleteLayer. simpl. split; [done|]. split; [|split].
  - intros (layer & Hid & Hin)%list_elem_of_fmap.
    apply list_elem_of_filter in Hin as [Hne _]. by apply Hne.
  - intros Hnonempty s Hsel Hin.
    destruct (filter (λ l, id l ≠ layerId) (layers st)) as [|first rest] eqn:Hnew;
      [done|].
    case_decide as Hcase.
    + exists (id first). split; [done|]. simpl. left.
    + exists s. split; [done|]. rewrite <- Hnew. apply elem_of_filter_ids; [done|].
      intros ->. apply Hcase. split; [done|]. simpl. lia.
  - intros ->. rewrite decide_False; [done|]. simpl. lia.
Qed.

End facts.

Lemma updateLayer_keeps_others_witness :
  updateLayer "layer-1" (only_opacity 0) sample_layers !! 0 = Some (sample_layer "layer-0")
  ∧ id <$> updateLayer "layer-1" (only_opacity 0) sample_layers = id <$> sample_layers.
Proof.
  pose proof (updateLayer_keeps_others "layer-1" (only_opacity 0) sample_layers)
    as (_ & Hother & _ & Hids).
  split.
  - apply Hother; [reflexivity|discriminate].
  - apply Hids. reflexivity.
Defined.

Lemma moveLayerUp_swaps_witness :
  ∃ layers',
    moveLayerUp "layer-0" sample_layers = Some (Some <$> layers')
    ∧ layers' ≡ₚ sample_layers
    ∧ layers' !! 0 = Some (sample_layer "layer-1")
    ∧ layers' !! 1 = Some (sample_layer "layer-0")
    ∧ ∀ j, j ≠ 0 → j ≠ 1 → layers' !! j = sample_layers !! j.
Proof.
  apply (moveLayerUp_swaps "layer-0" sample_layers 0
           (sample_layer "layer-0") (sample_layer "layer-1")); reflexivity.
Defined.

Lemma moveLayerUp_then_Down_witness :
  ∃ layers',
    moveLayerUp "layer-1" sample_layers = Some (Some <$> layers')
    ∧ moveLayerDown "layer-1" layers' = Some (Some <$> sample_layers).
Proof.
  apply (moveLayerUp_then_Down "layer-1" sample_layers 1
           (sample_layer "layer-1") (sample_layer "layer-2")); try reflexivity.
  simpl. repeat (apply NoDup_cons; split; [set_solver|]). apply NoDup_nil_2.
Defined.

Lemma move_edge_cases_witness :
  moveLayerDown "layer-9" sample_layers = None
  ∧ moveLayerUp "layer-9" sample_layers
    = Some [None; Some (sample_layer "layer-1"); Some (sample_layer "layer-2")].
Proof.
  assert (Hnone : Forall (λ l : Layer Z unit, id l ≠ "layer-9") sample_layers)
    by (repeat constructor; discriminate).
  destruct (proj2 (proj2 (move_edge_cases "layer-9" sample_layers)) Hnone)
    as [Hdown Hup].
  split; [exact Hdown|].
  exact (Hup (sample_layer "layer-0") [sample_layer "layer-1"; sample_layer "layer-2"]
           eq_refl).
Defined.

Lemma deleteLayer_selection_witness :
  ∃ s', selectedLayerId
          (deleteLayer "layer-0"
             {| layers := sample_layers; selectedLayerId := Some "layer-0" |})
        = Some s'
        ∧ s' ∈ id <$> layers
                 (deleteLayer "layer-0"
                    {| layers := sample_layers; selectedLayerId := Some "layer-0" |}).
Proof.
  refine (proj1 (proj2 (proj2 (deleteLayer_selection "layer-0"
                   {| layers := sample_layers; selectedLayerId := Some "layer-0" |})))
            _ "layer-0" _ _).
  - vm_compute. discriminate.
  - reflexivity.
  - vm_compute. left.
Defined.

End EditorFacts.

(** ** The depth map *)

Module MlProcessorFacts.
Import MlProcessor.
Local Open Scope nat_scope.

Lemma pixels_bound bound :
  4 * length (pixels bound) < bound + 4 ∧ bound ≤ 4 * length (pixels bound).
Proof.
  unfold pixels. rewrite length_seq.
  pose proof (Nat.div_mod_eq (bound + 3) 4) as Hdiv.
  pose proof (Nat.mod_upper_bound (bound + 3) 4) as Hmod. lia.
Qed.

Lemma pixels_multiple n : pixels (n * 4) = seq 0 n.
Proof.
  unfold pixels. f_equal.
  pose proof (Nat.div_mod_eq (n * 4 + 3) 4) as Hdiv.
  pose proof (Nat.mod_upper_bound (n * 4 + 3) 4) as Hmod. lia.
Qed.

Lemma write_pixel_at (done_ rest : list Z) i r g b a old0 old1 old2 old3 :
  length done_ = i →
  write_pixel i r g b a (done_ ++ old0 :: old1 :: old2 :: old3 :: rest)
  = done_ ++ r :: g :: b :: a :: rest.
Proof.
  intros <-. unfold write_pixel.
  rewrite !(insert_app_r_alt done_) by lia.
  replace (length done_ + 3 - length done_) with 3 by lia.
  replace (length done_ + 2 - length done_) with 2 by lia.
  replace (length done_ + 1 - length done_) with 1 by lia.
  replace (length done_ - length done_) with 0 by lia. done.
Qed.

Lemma length_concat_pixels (f : nat → list Z) (ps : list nat) :
  (∀ p, length (f p) = 4) → length (concat (f <$> ps)) = 4 * length ps.
Proof.
  intros Hf. induction ps as [|p ps IH]; [done|].
  rewrite fmap_cons, concat_cons, length_app, Hf, IH. simpl. lia.
Qed.

(** A pass that writes the four bytes [f p] of every pixel [p < k]
    leaves these bytes at the front and the rest of the array as it
    was. *)
Lemma pass_spec (f : nat → Z * Z * Z * Z) (depthData : list Z) (k : nat) :
  4 * k ≤ length depthData →
  foldl
    (λ depthData p,
       write_pixel (4 * p) (f p).1.1.1 (f p).1.1.2 (f p).1.2 (f p).2 depthData)
    depthData (seq 0 k)
  = concat ((λ p, [(f p).1.1.1; (f p).1.1.2; (f p).1.2; (f p).2]) <$> seq 0 k)
    ++ drop (4 * k) depthData.
Proof.
  induction k as [|k IH]; intros Hlen; [by rewrite drop_0|].
  rewrite seq_S, foldl_app, fmap_app, concat_app, IH by lia.
  rewrite Nat.add_0_l. cbn [foldl fmap list_fmap concat].
  assert (Hrest : ∃ old0 old1 old2 old3,
             drop (4 * k) depthData
             = old0 :: old1 :: old2 :: old3 :: drop (4 * S k) depthData).
  { assert (Hfour : length (drop (4 * k) depthData) ≥ 4) by (rewrite length_drop; lia).
    replace (4 * S k) with (4 * k + 4) by lia. rewrite <- drop_drop.
    destruct (drop (4 * k) depthData) as [|o0 [|o1 [|o2 [|o3 rest]]]];
      simpl in Hfour; try lia.
    by exists o0, o1, o2, o3. }
  destruct Hrest as (old0 & old1 & old2 & old3 & ->).
  rewrite write_pixel_at by (rewrite length_concat_pixels by done; by rewrite length_seq).
  by rewrite app_nil_r, <- app_assoc.
Qed.

Lemma pixel_at_concat (f : nat → list Z) (k p : nat) (rest : list Z) :
  (∀ q, length (f q) = 4) →
  p < k →
  pixel_at p (concat (f <$> seq 0 k) ++ rest) = f p.
Proof.
  intros Hf. unfold pixel_at.
  assert (Hgen : ∀ s, p < k →
            take 4 (drop (4 * p) (concat (f <$> seq s k) ++ rest)) = f (s + p)).
  { revert p. induction k as [|k IH]; intros p s Hp; [lia|].
    cbn [seq fmap list_fmap concat]. destruct p as [|p].
    - rewrite drop_0, <- app_assoc, take_app_length' by (by rewrite Hf).
      by rewrite Nat.add_0_r.
    - replace (4 * S p) with (4 + 4 * p) by lia.
      rewrite <- app_assoc, <- drop_drop.
      rewrite drop_app_length' by (by rewrite Hf).
      rewrite IH by lia. f_equal. lia. }
  intros Hp. by rewrite Hgen.
Qed.

Lemma pixel_at_untouched (done_ rest : list Z) (k p : nat) :
  length done_ = 4 * k →
  k ≤ p →
  pixel_at p (done_ ++ rest) = pixel_at (p - k) rest.
Proof.
  intros Hlen Hp. unfold pixel_at.
  replace (4 * p) with (length done_ + 4 * (p - k)) by lia.
  by rewrite <- drop_drop, drop_app_length.
Qed.

Lemma pixel_at_zeros p n :
  4 * p + 4 ≤ n → pixel_at p (replicate n 0%Z) = [0; 0; 0; 0]%Z.
Proof.
  intros Hp. unfold pixel_at. rewrite drop_replicate, take_replicate.
  replace (4 `min` (n - 4 * p)) with 4 by lia. done.
Qed.

Lemma fill_neutral_spec n :
  fill_neutral (replicate (n * 4) 0%Z)
  = concat (replicate n [128; 128; 128; 255]%Z).
Proof.
  unfold fill_neutral. rewrite length_replicate, pixels_multiple.
  rewrite (pass_spec (λ _, (128, 128, 128, 255)%Z)) by (rewrite length_replicate; lia).
  rewrite drop_replicate. replace (n * 4 - 4 * n) with 0 by lia.
  simpl. rewrite app_nil_r. f_equal.
  clear. generalize 0. induction n as [|n IH]; intros s; [done|].
  simpl. by rewrite IH.
Qed.

Lemma length_write_pixel i r g b a depthData :
  length (write_pixel i r g b a depthData) = length depthData.
Proof. unfold write_pixel. by rewrite !length_insert. Qed.

Lemma length_foldl_write (g : nat → Z * Z * Z * Z) depthData ps :
  length
    (foldl
       (λ depthData p,
          write_pixel (4 * p) (g p).1.1.1 (g p).1.1.2 (g p).1.2 (g p).2 depthData)
       depthData ps)
  = length depthData.
Proof.
  revert depthData. induction ps as [|p ps IH]; intros depthData; [done|].
  simpl. by rewrite IH, length_write_pixel.
Qed.

(** X22.  The depth map has four bytes for every pixel, whatever the
    mask. *)
Theorem depth_map_length (maskData : option (list Z)) (width height : nat) :
  length (generateSimpleDepthMap maskData width height) = width * height * 4.
Proof.
  unfold generateSimpleDepthMap, fill_from_mask, fill_neutral.
  destruct maskData as [maskData|]; [case_decide|].
  - rewrite (length_foldl_write
               (λ p, (depth_of (alpha_at maskData (4 * p)),
                      depth_of (alpha_at maskData (4 * p)),
                      depth_of (alpha_at maskData (4 * p)), 255%Z))).
    apply length_replicate.
  - rewrite (length_foldl_write (λ _, (128, 128, 128, 255)%Z)). apply length_replicate.
  - rewrite (length_foldl_write (λ _, (128, 128, 128, 255)%Z)). apply length_replicate.
Qed.

(** X23.  Without mask bytes (none found, or an empty array) the depth
    map is neutral: every pixel is opaque grey 128. *)
Theorem depth_map_neutral (maskData : option (list Z)) (width height : nat) :
  maskData = None ∨ maskData = Some [] →
  generateSimpleDepthMap maskData width height
  = concat (replicate (width * height) [128; 128; 128; 255]%Z).
Proof.
  intros [->| ->]; unfold generateSimpleDepthMap; simpl; apply fill_neutral_spec.
Qed.

Lemma depth_map_neutral_witness :
  generateSimpleDepthMap (Some []) 2 1
  = concat (replicate (2 * 1) [128; 128; 128; 255]%Z).
Proof. exact (depth_map_neutral (Some []) 2 1 (or_intror eq_refl)). Defined.

(** X24.  With mask bytes, a pixel whose first byte lies within the
    mask is opaque and grey: 200 when the mask's alpha for it is above
    128 and 50 otherwise; a pixel past the end of a mask that is too
    short stays transparent black and is not made neutral. *)
Theorem depth_map_from_mask (maskData : list Z) (width height p : nat) :
  0 < length maskData →
  p < width * height →
  (4 * p < length maskData →
   pixel_at p (generateSimpleDepthMap (Some maskData) width height)
   = [depth_of (alpha_at maskData (4 * p)); depth_of (alpha_at maskData (4 * p));
      depth_of (alpha_at maskData (4 * p)); 255%Z])
  ∧ (length maskData ≤ 4 * p →
     pixel_at p (generateSimpleDepthMap (Some maskData) width height)
     = [0; 0; 0; 0]%Z).
Proof.
  intros Hmask Hp. unfold generateSimpleDepthMap. rewrite decide_True by done.
  unfold fill_from_mask. rewrite length_replicate.
  pose proof (pixels_bound (length maskData `min` (width * height * 4))) as [Hup Hlow].
  unfold pixels in *. rewrite length_seq in Hup, Hlow.
  set (k := (length maskData `min` (width * height * 4) + 3) / 4) in *.
  assert (Hk : 4 * k ≤ width * height * 4) by lia.
  rewrite (pass_spec
             (λ p, (depth_of (alpha_at maskData (4 * p)),
                    depth_of (alpha_at maskData (4 * p)),
                    depth_of (alpha_at maskData (4 * p)), 255%Z)))
    by (rewrite length_replicate; lia).
  simpl. split.
  - intros Hin.
    apply (pixel_at_concat
             (λ p, [depth_of (alpha_at maskData (4 * p));
                    depth_of (alpha_at maskData (4 * p));
                    depth_of (alpha_at maskData (4 * p)); 255%Z])); [done|lia].
  - intros Hout.
    rewrite (pixel_at_untouched _ _ k);
      [|rewrite length_concat_pixels by done; by rewrite length_seq|lia].
    rewrite drop_replicate. apply pixel_at_zeros. lia.
Qed.

Lemma depth_map_from_mask_witness :
  pixel_at 0 (generateSimpleDepthMap (Some [0; 0; 0; 255; 0; 0; 0; 0]%Z) 3 1)
    = [200; 200; 200; 255]%Z
  ∧ pixel_at 2 (generateSimpleDepthMap (Some [0; 0; 0; 255; 0; 0; 0; 0]%Z) 3 1)
    = [0; 0; 0; 0]%Z.
Proof.
  split.
  - refine (proj1 (depth_map_from_mask [0; 0; 0; 255; 0; 0; 0; 0]%Z 3 1 0 _ _) _);
      simpl; lia.
  - refine (proj2 (depth_map_from_mask [0; 0; 0; 255; 0; 0; 0; 0]%Z 3 1 2 _ _) _);
      simpl; lia.
Defined.

End MlProcessorFacts.
